(** * cmdparser: a shallow embedding of the option parser and its preferences codec

    The development follows [src/cmdparser.go].  Go strings are byte
    sequences and are modelled by [string]; byte slices are lists of
    [ascii]; [int64] and [uint64] values are integers in [Z] with the
    wrap-around written out where the source can reach it; a slice that
    may be [nil] is an [option (list _)].  The process-wide variables of
    the package ([optionList], [commandList], [Args], the variables bound
    to options) are threaded explicitly. *)

From Stdlib Require Import ZArith NArith Ascii String List Lia Bool.
From stdpp Require Import base option list strings gmap sorting.

Local Open Scope Z_scope.

(** ** Errors *)

Inductive NumErrKind := ErrSyntax | ErrRange.

(** The [error] values that travel through the package.  [NumError] is
    [*strconv.NumError], [CorruptInputError] is the one of
    [encoding/base64], [JSONError] stands for the errors of
    [encoding/json] and [PathError] for those of [os], both kept as
    their message.  The others are the errors that [Parse] makes with
    [errors.New], one constructor for each place that makes one, kept
    with their arguments; [errors_New] gives their text. *)
Inductive error :=
| NumError (fn num : string) (kind : NumErrKind)
| CorruptInputError (offset : Z)
| JSONError (msg : string)
| PathError (msg : string)
| UnknownOption (name : string)
| InvalidValue (name value : string) (cause : error)
| MissingRequiredOption (name : string)
| MissingCommand
| UnknownCommand (token : string).

(** The text given to [errors.New]; the text of [InvalidValue] embeds
    the message of a library error and is not rendered. *)
Definition errors_New (e : error) : option string :=
  match e with
  | UnknownOption name => Some ("Invalid option -" +:+ name)
  | MissingRequiredOption name => Some ("Missing required option -" +:+ name)
  | MissingCommand => Some "Missing required command"
  | UnknownCommand token => Some (token +:+ " is not a valid command")
  | _ => None
  end.

(** ** Slices that may be nil *)

Definition slice (A : Type) := option (list A).

Definition elems {A} (s : slice A) : list A := default [] s.

(** [append(s, v)]: appending to a nil slice allocates. *)
Definition append {A} (s : slice A) (v : A) : slice A := Some (elems s ++ [v]).

(** ** strconv *)

Module strconv.

(** [strconv.ParseBool]. *)
Definition ParseBool (str : string) : bool * option error :=
  if bool_decide (str ∈ ["1"; "t"; "T"; "true"; "TRUE"; "True"]) then (true, None)
  else if bool_decide (str ∈ ["0"; "f"; "F"; "false"; "FALSE"; "False"]) then (false, None)
  else (false, Some (NumError "ParseBool" str ErrSyntax)).

Definition maxUint64 : Z := 2 ^ 64 - 1.

Definition byte_val (c : ascii) : Z := Z.of_N (N_of_ascii c).
Definition byte_of (z : Z) : ascii := ascii_of_N (Z.to_N (z mod 256)).

(** The digit loop of [formatBits] for base 10: digits are produced from
    the least significant one and stored from the end of the buffer.
    A [uint64] has at most 20 decimal digits. *)
Fixpoint formatBits (fuel : nat) (u : Z) (acc : string) : string :=
  match fuel with
  | O => acc
  | S f =>
      if u <? 10 then String (byte_of (48 + u)) acc
      else formatBits f (u / 10) (String (byte_of (48 + u mod 10)) acc)
  end.

(** [strconv.FormatInt(i, 10)], which is what [fmt.Sprintf("%v", i)]
    prints for an [int64]. *)
Definition FormatInt (i : Z) : string :=
  if i <? 0 then String "-" (formatBits 20 (- i) EmptyString)
  else formatBits 20 i EmptyString.

(** The value of a digit character in [ParseUint]; [None] is the
    [default] case of the switch. *)
Definition digit_val (d : ascii) : option Z :=
  let c := byte_val d in
  if (48 <=? c) && (c <=? 57) then Some (c - 48)
  else if (97 <=? c) && (c <=? 122) then Some (c - 97 + 10)
  else if (65 <=? c) && (c <=? 90) then Some (c - 65 + 10)
  else None.

(** The [for ; i < len(s); i++] loop of [ParseUint] with [bitSize] 64. *)
Fixpoint uint_loop (base : Z) (s : string) (n : Z) : Z * option NumErrKind :=
  match s with
  | EmptyString => (n, None)
  | String d rest =>
      match digit_val d with
      | None => (0, Some ErrSyntax)
      | Some v =>
          if base <=? v then (0, Some ErrSyntax)
          else if maxUint64 / base + 1 <=? n then (maxUint64, Some ErrRange)
          else
            let n' := (n * base) mod 2 ^ 64 in
            let n1 := (n' + v) mod 2 ^ 64 in
            if (n1 <? n') || (maxUint64 <? n1) then (maxUint64, Some ErrRange)
            else uint_loop base rest n1
      end
  end.

(** [strconv.ParseUint(s, 0, 64)]: the base is taken from the prefix,
    ["0x"] or ["0X"] for 16, a leading ["0"] for 8, and 10 otherwise
    (src/cmdparser.go:497). *)
Definition ParseUint (s : string) : Z * option NumErrKind :=
  match s with
  | EmptyString => (0, Some ErrSyntax)
  | String "0" (String x rest) =>
      if bool_decide (x = "x"%char ∨ x = "X"%char) then
        match rest with
        | EmptyString => (0, Some ErrSyntax)
        | _ => uint_loop 16 rest 0
        end
      else uint_loop 8 (String x rest) 0
  | String "0" EmptyString => uint_loop 8 EmptyString 0
  | _ => uint_loop 10 s 0
  end.

(** [strconv.ParseInt(s, 0, 64)]. *)
Definition ParseInt (s0 : string) : Z * option error :=
  match s0 with
  | EmptyString => (0, Some (NumError "ParseInt" s0 ErrSyntax))
  | String c rest =>
      let neg := bool_decide (c = "-"%char) in
      let s := if bool_decide (c = "+"%char ∨ c = "-"%char) then rest else s0 in
      let cutoff := 2 ^ 63 in
      match ParseUint s with
      | (_, Some ErrSyntax) => (0, Some (NumError "ParseInt" s0 ErrSyntax))
      | (un, _) =>
          if negb neg && (cutoff <=? un) then (cutoff - 1, Some (NumError "ParseInt" s0 ErrRange))
          else if neg && (cutoff <? un) then (- cutoff, Some (NumError "ParseInt" s0 ErrRange))
          else (if neg then - un else un, None)
      end
  end.

End strconv.

(** ** encoding/base64, the standard encoding with padding *)

Module base64.

Import strconv.

Definition encodeStd : list ascii :=
  list_ascii_of_string "ABCDEFGHIJKLMNOPQRSTUVWXYZabcdefghijklmnopqrstuvwxyz0123456789+/".

(** [enc.encode[b]]. *)
Definition encode (b : Z) : ascii := nth (Z.to_nat b) encodeStd "000"%char.

(** [enc.decodeMap[c]]: the index of [c] in the alphabet, [0xFF] for
    every other byte. *)
Fixpoint index_from (c : ascii) (l : list ascii) (i : Z) : Z :=
  match l with
  | [] => 255
  | x :: l' => if bool_decide (x = c) then i else index_from c l' (i + 1)
  end.

Definition decodeMap (c : ascii) : Z := index_from c encodeStd 0.

Definition shl8 (x k : Z) : Z := Z.shiftl x k mod 256.

(** [Encode], one quantum of three source bytes at a time; the final
    quantum is padded. *)
Fixpoint Encode (src : list ascii) : list ascii :=
  match src with
  | [] => []
  | [s0] =>
      let b1 := Z.land (shl8 (byte_val s0) 4) 63 in
      let b0 := Z.shiftr (byte_val s0) 2 in
      [encode b0; encode b1; "="%char; "="%char]
  | [s0; s1] =>
      let b2 := Z.land (shl8 (byte_val s1) 2) 63 in
      let b1 := Z.shiftr (byte_val s1) 4 in
      let b1 := Z.lor b1 (Z.land (shl8 (byte_val s0) 4) 63) in
      let b0 := Z.shiftr (byte_val s0) 2 in
      [encode b0; encode b1; encode b2; "="%char]
  | s0 :: s1 :: s2 :: rest =>
      let b3 := Z.land (byte_val s2) 63 in
      let b2 := Z.shiftr (byte_val s2) 6 in
      let b2 := Z.lor b2 (Z.land (shl8 (byte_val s1) 2) 63) in
      let b1 := Z.shiftr (byte_val s1) 4 in
      let b1 := Z.lor b1 (Z.land (shl8 (byte_val s0) 4) 63) in
      let b0 := Z.shiftr (byte_val s0) 2 in
      encode b0 :: encode b1 :: encode b2 :: encode b3 :: Encode rest
  end.

Definition EncodeToString (src : list ascii) : string :=
  string_of_list_ascii (Encode src).

Definition dst0 (d0 d1 : Z) : ascii := byte_of (Z.lor (shl8 d0 2) (Z.shiftr d1 4)).
Definition dst1 (d1 d2 : Z) : ascii := byte_of (Z.lor (shl8 d1 4) (Z.shiftr d2 2)).
Definition dst2 (d2 d3 : Z) : ascii := byte_of (Z.lor (shl8 d2 6) d3).

Definition len {A} (l : list A) : Z := Z.of_nat (length l).

Definition is_pad (c : ascii) : bool := bool_decide (c = "="%char).
Definition bad (c : ascii) : bool := bool_decide (decodeMap c = 255).
Definition corrupt (off : Z) : list ascii * option error := ([], Some (CorruptInputError off)).
Definition trailing (olen : Z) (src : list ascii) : option error :=
  match src with [] => None | _ => Some (CorruptInputError (olen - len src)) end.

(** [enc.decode]: the bytes written to [dst[:n]] and the error.  Bytes
    of the quanta decoded before a corrupt position stay in the result;
    a quantum that ends with padding is written even when garbage
    follows it. *)
Fixpoint decode (olen : Z) (src : list ascii) : list ascii * option error :=
  match src with
  | [] => ([], None)
  | c0 :: src1 =>
    if is_pad c0 || bad c0 then corrupt (olen - len src1 - 1) else
    match src1 with
    | [] => corrupt (olen - 1)
    | c1 :: src2 =>
      if is_pad c1 || bad c1 then corrupt (olen - len src2 - 1) else
      match src2 with
      | [] => corrupt (olen - 2)
      | c2 :: src3 =>
        if is_pad c2 then
          match src3 with
          | [] => corrupt olen
          | c3 :: src4 =>
              if is_pad c3
              then ([dst0 (decodeMap c0) (decodeMap c1)], trailing olen src4)
              else corrupt (olen - len src3 - 1)
          end
        else if bad c2 then corrupt (olen - len src3 - 1) else
        match src3 with
        | [] => corrupt (olen - 3)
        | c3 :: src4 =>
            if is_pad c3 then
              ([dst0 (decodeMap c0) (decodeMap c1); dst1 (decodeMap c1) (decodeMap c2)],
               trailing olen src4)
            else if bad c3 then corrupt (olen - len src4 - 1)
            else
              let '(r, e) := decode olen src4 in
              (dst0 (decodeMap c0) (decodeMap c1) :: dst1 (decodeMap c1) (decodeMap c2)
                 :: dst2 (decodeMap c2) (decodeMap c3) :: r, e)
        end
      end
    end
  end.

Definition removeNewlines (s : list ascii) : list ascii :=
  filter (fun c => c ≠ "013"%char ∧ c ≠ "010"%char) s.

(** [DecodeString]: always a non-nil slice, [dbuf[:n]]. *)
Definition DecodeString (s : string) : list ascii * option error :=
  let src := removeNewlines (list_ascii_of_string s) in
  decode (len src) src.

End base64.

(** ** The parts of the Go library that are left abstract

    [float64] with its printing and parsing, and the JSON text of a
    string slice, are taken as an interface: every statement below holds
    for any implementation of it. *)

Class Float64 := {
  float64 : Type;
  (** the zero value of [float64] *)
  float_zero : float64;
  (** [fmt.Sprintf("%v", f)] *)
  FormatFloat : float64 -> string;
  (** [strconv.ParseFloat(s, 64)]: the value and the kind of its
      [NumError], if any *)
  ParseFloat : string -> float64 * option NumErrKind;
  (** the [float64] that [encoding/json] decodes from the number
      literal it wrote for an [int64] *)
  float_of_int : Z -> float64;
}.

(** ** Option values (src/cmdparser.go:355-479) *)

(** The six types that implement [optionValue], each a pointer to a
    variable of the program; this is the content of that variable. *)
Inductive optionValue `{Float64} :=
| boolOption (b : bool)
| intOption (i : Z)
| floatOption (f : float64)
| stringOption (s : string)
| stringListOption (s : slice string)
| byteOption (b : slice ascii).

(** What [Get()] returns in its [interface{}]. *)
Inductive native `{Float64} :=
| NBool (b : bool)
| NInt64 (i : Z)
| NFloat64 (f : float64)
| NString (s : string)
| NStrings (s : slice string)
| NBytes (b : slice ascii).

(** The variables bound to options, by address. *)
Abbreviation Heap := (list optionValue).

Class JSON `{Float64} := {
  (** [json.Marshal([]string(s))] for a non-nil [s]; it cannot fail *)
  Marshal_strings : list string -> string;
  (** [json.Unmarshal([]byte(v), s)] for [s] a pointer to a string
      slice: the slice after the call and the error *)
  Unmarshal_strings : string -> slice string -> slice string * option string;
  (** [json.MarshalIndent] on the map built by [jsonOptions]: the text
      and the message of the error, if any *)
  MarshalIndent : gmap string native -> string * option string;
}.

(** ** Control flow

    A computation either yields a value, makes the enclosing function
    return (with [nil] or with an error), or panics. *)

Inductive res (A : Type) :=
| Val (a : A)
| Return (err : option error)
| Panic (msg : string).
Arguments Val {A} a.
Arguments Return {A} err.
Arguments Panic {A} msg.

Section cmdparser.

Context `{JSON}.

Definition fmt_bool (b : bool) : string := if b then "true" else "false".

(** [String()] *)
Definition String' (v : optionValue) : string :=
  match v with
  | boolOption b => fmt_bool b
  | intOption i => strconv.FormatInt i
  | floatOption f => FormatFloat f
  | stringOption s => s
  | stringListOption None => EmptyString
  | stringListOption (Some l) => Marshal_strings l
  | byteOption b => base64.EncodeToString (elems b)
  end.

(** [Reset()] *)
Definition Reset (v : optionValue) : optionValue :=
  match v with
  | boolOption _ => boolOption false
  | intOption _ => intOption 0
  | floatOption _ => floatOption float_zero
  | stringOption _ => stringOption EmptyString
  | stringListOption _ => stringListOption None
  | byteOption _ => byteOption None
  end.

(** [Get()] *)
Definition Get (v : optionValue) : native :=
  match v with
  | boolOption b => NBool b
  | intOption i => NInt64 i
  | floatOption f => NFloat64 f
  | stringOption s => NString s
  | stringListOption s => NStrings s
  | byteOption b => NBytes b
  end.

(** [Set(s)]: the variable after the call and the error returned.  The
    scalar types store what the parse function returned before they
    return its error. *)
Definition Set' (v : optionValue) (s : string) : optionValue * option error :=
  match v with
  | boolOption _ => let '(b, err) := strconv.ParseBool s in (boolOption b, err)
  | intOption _ => let '(i, err) := strconv.ParseInt s in (intOption i, err)
  | floatOption _ =>
      let '(f, err) := ParseFloat s in (floatOption f, NumError "ParseFloat" s <$> err)
  | stringOption _ => (stringOption s, None)
  | stringListOption l => (stringListOption (append l s), None)
  | byteOption _ => let '(b, err) := base64.DecodeString s in (byteOption (Some b), err)
  end.

(** [FromString(v)] on a string list *)
Definition FromString (l : slice string) (v : string) : slice string * option error :=
  let '(l', err) := Unmarshal_strings v l in (l', JSONError <$> err).

Inductive kind := KBool | KInt | KFloat | KString | KStringList | KByte.

(** The dynamic type that a type switch on [option.Value] sees. *)
Definition kind_of (v : optionValue) : kind :=
  match v with
  | boolOption _ => KBool
  | intOption _ => KInt
  | floatOption _ => KFloat
  | stringOption _ => KString
  | stringListOption _ => KStringList
  | byteOption _ => KByte
  end.

(** ** The package state

    [heap] holds the variables that the program bound to its options;
    an option keeps the address of its variable, so two options bound
    to one variable share a cell.  A callback is a Go closure; it is
    modelled by its effect on those variables, and every call is also
    recorded in the trace together with what the package prints. *)

Definition hook := Heap -> Heap.

Definition Standard : Z := 1.
Definition Preference : Z := 2.
Definition Required : Z := 4.
Definition Hidden : Z := 8.

Record CmdCommand := {
  Command : string;
  CommandHelp : string;
  Function : option hook;
}.

Record CmdOption := {
  Name : string;
  Group : string;
  Format : string;
  Help : string;
  Value : nat;
  Default : string;
  Flags : Z;
  onChange : option hook;
  onSave : option hook;
}.

Inductive event :=
| EvUsage
| EvPrintln (s : string)
| EvChange (name : string)
| EvSave (name : string)
| EvCommand (name : string)
| EvWriteFile (name data : string).

(** The package variables that registration fills in. *)
Record Package := {
  Title : string;
  OptionsFile : string;
  commandList : list CmdCommand;
  optionList : list CmdOption;
}.

(** What a run changes: the bound variables, [Args], and the trace. *)
Record World := {
  heap : Heap;
  Args : list string;
  trace : list event;
}.

(** ** Registration (src/cmdparser.go:334-338, 384-394, 481-485) *)

Definition deref (h : Heap) (a : nat) : option optionValue := h !! a.

(** [addOption]: [variable.String()] is read at this moment; a nil
    pointer panics there, which [None] stands for. *)
Definition addOption (name cmd format help : string) (variable : nat) (flags : Z)
    (h : Heap) (p : Package) : option Package :=
  v ← deref h variable;
  Some {| Title := Title p; OptionsFile := OptionsFile p; commandList := commandList p;
          optionList := optionList p ++
            [{| Name := name; Group := cmd; Format := format; Help := help;
                Value := variable; Default := String' v; Flags := flags;
                onChange := None; onSave := None |}] |}.

Definition addCommand (cmd help : string) (function : option hook) (p : Package) : Package :=
  {| Title := Title p; OptionsFile := OptionsFile p;
     commandList := commandList p ++
       [{| Command := cmd; CommandHelp := help; Function := function |}];
     optionList := optionList p |}.

Definition OnChange (f : hook) (c : CmdOption) : CmdOption :=
  {| Name := Name c; Group := Group c; Format := Format c; Help := Help c;
     Value := Value c; Default := Default c; Flags := Flags c;
     onChange := Some f; onSave := onSave c |}.

Definition OnSave (f : hook) (c : CmdOption) : CmdOption :=
  {| Name := Name c; Group := Group c; Format := Format c; Help := Help c;
     Value := Value c; Default := Default c; Flags := Flags c;
     onChange := onChange c; onSave := Some f |}.

(** The first option with the given name, as the lookup loop of [Parse]
    finds it. *)
Definition lookup_option (l : list CmdOption) (name : string) : option CmdOption :=
  find (fun o => bool_decide (Name o = name)) l.

(** ** The monad of the package: state, early return and panic *)

Definition M (A : Type) := World -> res A * World.

Definition ret {A} (a : A) : M A := fun w => (Val a, w).
Definition bind {A B} (k : A -> M B) (m : M A) : M B :=
  fun w => match m w with
           | (Val a, w') => k a w'
           | (Return e, w') => (Return e, w')
           | (Panic msg, w') => (Panic msg, w')
           end.
Definition return_ {A} (err : option error) : M A := fun w => (Return err, w).
Definition panic {A} (msg : string) : M A := fun w => (Panic msg, w).

#[local] Instance M_ret : MRet M := @ret.
#[local] Instance M_bind : MBind M := @bind.

Definition emit (e : event) : M unit :=
  fun w => (Val tt, {| heap := heap w; Args := Args w; trace := trace w ++ [e] |}).

Definition set_heap (h : Heap) : M unit :=
  fun w => (Val tt, {| heap := h; Args := Args w; trace := trace w |}).

Definition set_Args (a : list string) : M unit :=
  fun w => (Val tt, {| heap := heap w; Args := a; trace := trace w |}).

Definition get_world : M World := fun w => (Val w, w).

(** Reading through the pointer of an option. *)
Definition load (a : nat) : M optionValue :=
  w ← get_world;
  match deref (heap w) a with
  | Some v => ret v
  | None => panic "invalid memory address or nil pointer dereference"
  end.

Definition store (a : nat) (v : optionValue) : M unit :=
  w ← get_world; set_heap (<[a := v]> (heap w)).

Definition call (f : option hook) (e : event) : M unit :=
  match f with
  | Some g => w ← get_world; set_heap (g (heap w));; emit e
  | None => ret tt
  end.

Definition doChange (c : CmdOption) : M unit := call (onChange c) (EvChange (Name c)).
Definition doSave (c : CmdOption) : M unit := call (onSave c) (EvSave (Name c)).

(** [s[0]]; indexing an empty string panics. *)
Definition byte0 (s : string) : M ascii :=
  match s with
  | EmptyString => panic "index out of range"
  | String c _ => ret c
  end.

(** [value.Reset()], [value.Set(s)] and [FromString] through the pointer. *)
Definition Value_Reset (o : CmdOption) : M unit :=
  v ← load (Value o); store (Value o) (Reset v).

Definition Value_Set (o : CmdOption) (s : string) : M (option error) :=
  v ← load (Value o);
  let '(v', err) := Set' v s in
  store (Value o) v';; ret err.

Definition Value_String (o : CmdOption) : M string :=
  v ← load (Value o); ret (String' v).

(** ** The environment of a run *)

(** A decoded JSON value, as [encoding/json] stores it in an
    [interface{}]. *)
#[warnings="-register-all"] Inductive json :=
| JNull
| JBool (b : bool)
| JNumber (f : float64)
| JString (s : string)
| JArray (l : list json)
| JObject (m : list (string * json)).

(** What opening and decoding the options file gives: it cannot be
    opened, it does not decode into a map, or it decodes. *)
Inductive optionsFile :=
| NoFile
| Undecodable (msg : string)
| Decoded (optionMap : gmap string json).

Record Env := {
  os_Args : list string;
  file : optionsFile;
  (** the error of [os.MkdirAll] or [os.OpenFile] in [saveOptions] *)
  write_err : option string;
}.

(** ** Preferences (src/cmdparser.go:254-322) *)

(** [fmt.Sprintf("%v", t)] for the scalars of the [default] case. *)
Definition Sprintf_v (t : json) : string :=
  match t with
  | JBool b => fmt_bool b
  | JNumber f => FormatFloat f
  | JString s => s
  | _ => EmptyString
  end.

(** The dynamic type of a decoded value, as the panic of a failed type
    assertion names it. *)
Definition dynamic_type (t : json) : string :=
  match t with
  | JNull => "nil"
  | JBool _ => "bool"
  | JNumber _ => "float64"
  | JString _ => "string"
  | JArray _ => "[]interface {}"
  | JObject _ => "map[string]interface {}"
  end.

(** [for _, s := range t { o.Value.Set(s.(string)) }] *)
Fixpoint set_each (o : CmdOption) (t : list json) : M unit :=
  match t with
  | [] => ret tt
  | JString s :: t' =>
      err ← Value_Set o s;
      match err with
      | Some e => return_ (Some e)
      | None => set_each o t'
      end
  | x :: _ => panic ("interface conversion: interface {} is " +:+ dynamic_type x
                     +:+ ", not string")
  end.

(** The body of the loop of [loadOptions] for one option. *)
Definition load_option (optionMap : gmap string json) (o : CmdOption) : M unit :=
  match optionMap !! Name o with
  | None => ret tt
  | Some JNull => Value_Reset o
  | Some (JObject _) => ret tt
  | Some (JArray t) => Value_Reset o;; set_each o t;; doChange o
  | Some t =>
      err ← Value_Set o (Sprintf_v t);
      match err with
      | Some e => return_ (Some e)
      | None => doChange o
      end
  end.

Fixpoint for_each {A} (f : A -> M unit) (l : list A) : M unit :=
  match l with
  | [] => ret tt
  | x :: l' => f x;; for_each f l'
  end.

Definition loadOptions (p : Package) (env : Env) : M unit :=
  match file env with
  | NoFile => return_ None
  | Undecodable msg => return_ (Some (JSONError msg))
  | Decoded optionMap => for_each (load_option optionMap) (optionList p);; return_ None
  end.

Definition has_flag (flags flag : Z) : bool := 0 <? Z.land flags flag.

(** The body of the loop of [jsonOptions] for one option. *)
Definition json_option (optionMap : gmap string native) (v : CmdOption) : M (gmap string native) :=
  text ← Value_String v;
  if has_flag (Flags v) Preference && negb (bool_decide (text = Default v)) then
    doSave v;;
    x ← load (Value v);
    ret (<[Name v := Get x]> optionMap)
  else ret optionMap.

Fixpoint json_loop (optionMap : gmap string native) (l : list CmdOption) : M (gmap string native) :=
  match l with
  | [] => ret optionMap
  | v :: l' => m ← json_option optionMap v; json_loop m l'
  end.

(** The map that [jsonOptions] builds before it marshals it. *)
Definition optionMap_of (p : Package) : M (gmap string native) :=
  json_loop ∅ (optionList p).

Definition jsonOptions (p : Package) : M (string * option error) :=
  optionMap ← optionMap_of p;
  match MarshalIndent optionMap with
  | (_, Some msg) => ret (EmptyString, Some (JSONError msg))
  | (jsonData, None) => ret (jsonData, None)
  end.

(** What [encoding/json] decodes into an [interface{}] from the text
    that it wrote for a native value: a number comes back as a
    [float64], a byte slice as its base64 string, a nil slice as null.
    (For strings of valid UTF-8 and floats that are finite; the others
    are changed or refused by [json.MarshalIndent].) *)
Definition reread (x : native) : json :=
  match x with
  | NBool b => JBool b
  | NInt64 i => JNumber (float_of_int i)
  | NFloat64 f => JNumber f
  | NString s => JString s
  | NStrings None => JNull
  | NStrings (Some l) => JArray (JString <$> l)
  | NBytes None => JNull
  | NBytes (Some b) => JString (base64.EncodeToString b)
  end.

(** The options file after [saveOptions] wrote the map. *)
Definition saved_file (optionMap : gmap string native) : optionsFile :=
  Decoded (reread <$> optionMap).

(** [saveOptions]: the error of [jsonOptions] is overwritten by the one
    of [os.MkdirAll]. *)
Definition saveOptions (p : Package) (env : Env) (name : string) : M (option error) :=
  '(jsonData, _) ← jsonOptions p;
  match write_err env with
  | Some msg => ret (Some (PathError msg))
  | None => emit (EvWriteFile name jsonData);; ret None
  end.

(** ** Parse (src/cmdparser.go:113-250) *)

(** [strings.Split(s, sep)] for a separator of one byte. *)
Fixpoint Split (s : string) (sep : ascii) : list string :=
  match s with
  | EmptyString => [EmptyString]
  | String c r =>
      if bool_decide (c = sep) then EmptyString :: Split r sep
      else match Split r sep with
           | h :: t => String c h :: t
           | [] => [String c EmptyString]
           end
  end.

(** [s[1:]] of a string that is not empty. *)
Definition drop1 (s : string) : string :=
  match s with
  | EmptyString => EmptyString
  | String _ r => r
  end.

(** The local variables of the scan. *)
Record Flags3 := {
  stopParsing : bool;
  doSave_ : bool;
  doShow : bool;
}.

(** [i < len(os.Args)-1 && os.Args[i+1][0] != '-']: is there a next
    token that may be taken as a value. *)
Definition value_follows (next : option string) : M bool :=
  match next with
  | None => ret false
  | Some n => c ← byte0 n; ret (negb (bool_decide (c = "-"%char)))
  end.

(** The [if len(pair) < 2] block: the pair after it and whether the
    next token was consumed ([i++]). *)
Definition lookahead (opt : CmdOption) (name : string) (next : option string)
    : M (list string * bool) :=
  v ← load (Value opt);
  follows ← value_follows next;
  match kind_of v with
  | KBool =>
      if (follows : bool) then
        match strconv.ParseBool (default EmptyString next) with
        | (_, Some _) => ret ([name; "true"], false)
        | (_, None) => ret ([name; default EmptyString next], true)
        end
      else ret ([name; "true"], false)
  | KStringList =>
      if (follows : bool) then ret ([name; default EmptyString next], true)
      else
        match v with
        | stringListOption l =>
            store (Value opt) (stringListOption (FromString l (Default opt)).1);;
            ret ([name], false)
        | _ => ret ([name], false)
        end
  | _ =>
      if (follows : bool) then ret ([name; default EmptyString next], true)
      else ret ([name; Default opt], false)
  end.

(** The [if len(pair) == 2] block. *)
Definition apply_pair (opt : CmdOption) (pair : list string) : M unit :=
  match pair with
  | [name; value] =>
      (if bool_decide (value = EmptyString) then Value_Reset opt
       else
         err ← Value_Set opt value;
         match err with
         | Some e => return_ (Some (InvalidValue name value e))
         | None => ret tt
         end);;
      doChange opt
  | _ => ret tt
  end.

(** The branch of the scan for a token that starts with ['-']. *)
Definition option_token (p : Package) (tok : string) (next : option string) : M bool :=
  let pair := Split (drop1 tok) "="%char in
  let name := default EmptyString (head pair) in
  match lookup_option (optionList p) name with
  | None => return_ (Some (UnknownOption name))
  | Some opt =>
      '(pair', consumed) ←
        (if bool_decide (length pair < 2)%nat then lookahead opt name next
         else ret (pair, false));
      apply_pair opt pair';;
      ret consumed
  end.

(** One iteration of the [for] loop: the flags after it and whether
    [i] was advanced over the next token as well. *)
Definition scan_token (p : Package) (fl : Flags3) (tok : string) (next : option string)
    : M (Flags3 * bool) :=
  if stopParsing fl then
    w ← get_world; set_Args (Args w ++ [tok]);; ret (fl, false)
  else if bool_decide (tok = "-?" ∨ tok = "-h" ∨ tok = "-H") then
    emit EvUsage;; return_ None
  else if bool_decide (tok = "-version") then
    (if bool_decide (Title p ≠ EmptyString) then emit (EvPrintln (Title p))
     else emit (EvPrintln "No title has been set"));;
    return_ None
  else if bool_decide (tok = "--") then
    ret ({| stopParsing := true; doSave_ := doSave_ fl; doShow := doShow fl |}, false)
  else if bool_decide (OptionsFile p ≠ EmptyString) && bool_decide (tok = "-saveoptions") then
    ret ({| stopParsing := stopParsing fl; doSave_ := true; doShow := doShow fl |}, false)
  else if bool_decide (OptionsFile p ≠ EmptyString) && bool_decide (tok = "-showoptions") then
    ret ({| stopParsing := stopParsing fl; doSave_ := doSave_ fl; doShow := true |}, false)
  else
    c ← byte0 tok;
    if bool_decide (c = "-"%char) then
      consumed ← option_token p tok next; ret (fl, consumed)
    else
      w ← get_world; set_Args (Args w ++ [tok]);; ret (fl, false).

(** The [for i := 0; i < len(os.Args); i++] loop over the tokens that
    are left. *)
Fixpoint scan (p : Package) (fl : Flags3) (toks : list string) : M Flags3 :=
  match toks with
  | [] => ret fl
  | tok :: rest =>
      '(fl', consumed) ← scan_token p fl tok (head rest);
      if consumed : bool then
        match rest with
        | [] => ret fl'
        | _ :: rest' => scan p fl' rest'
        end
      else scan p fl' rest
  end.

(** The loop that picks the command: the first command named as
    [Args[1]], else the last command with the empty name. *)
Fixpoint resolve (args : list string) (l : list CmdCommand) (command : option CmdCommand)
    : option CmdCommand :=
  match l with
  | [] => command
  | c :: l' =>
      if (bool_decide (1 < length args)%nat && bool_decide (Some (Command c) = args !! 1%nat))
         || bool_decide (Command c = EmptyString)
      then
        if bool_decide (Command c ≠ EmptyString) then Some c
        else resolve args l' (Some c)
      else resolve args l' command
  end.

(** The loop over [optionList] that returns for the first required
    option whose text is its default. *)
Definition check_required (n : CmdOption) : M unit :=
  text ← Value_String n;
  if has_flag (Flags n) Required && bool_decide (text = Default n)
  then return_ (Some (MissingRequiredOption (Name n)))
  else ret tt.

(** The last [else] branch of [Parse] (lines 219-246). *)
Definition dispatch (p : Package) : M unit :=
  w ← get_world;
  match resolve (Args w) (commandList p) None with
  | Some command =>
      for_each check_required (optionList p);;
      call (Function command) (EvCommand (Command command))
  | None =>
      if bool_decide (length (Args w) < 2)%nat then
        emit EvUsage;;
        return_ (Some MissingCommand)
      else
        return_ (Some (UnknownCommand (default EmptyString (Args w !! 1%nat))))
  end.

(** What follows the scan (lines 199-248). *)
Definition finish (p : Package) (env : Env) (fl : Flags3) : M unit :=
  if doShow fl then
    '(js, err) ← jsonOptions p;
    match err with
    | Some e => return_ (Some e)
    | None => emit (EvPrintln js)
    end
  else if doSave_ fl then
    err ← saveOptions p env (OptionsFile p);
    match err with
    | Some e => return_ (Some e)
    | None => emit (EvPrintln ("Options saved to " +:+ OptionsFile p))
    end
  else dispatch p.

(** A call of a function that returns an [error]: its [return] ends
    the call, not the caller. *)
Definition returned (m : M unit) : M (option error) :=
  fun w => match m w with
           | (Val _, w') => (Val None, w')
           | (Return e, w') => (Val e, w')
           | (Panic msg, w') => (Panic msg, w')
           end.

Definition no_flags : Flags3 := {| stopParsing := false; doSave_ := false; doShow := false |}.

(** The start of [Parse] (lines 114-118). *)
Definition load_phase (p : Package) (env : Env) : M unit :=
  if bool_decide (OptionsFile p ≠ EmptyString) then
    err ← returned (loadOptions p env);
    match err with
    | Some e => return_ (Some e)
    | None => ret tt
    end
  else ret tt.

(** [Parse] up to the end of the scan (lines 114-197). *)
Definition scan_phase (p : Package) (env : Env) : M Flags3 :=
  load_phase p env;;
  set_Args [];;
  scan p no_flags (os_Args env).

Definition Parse_body (p : Package) (env : Env) : M unit :=
  fl ← scan_phase p env;
  finish p env fl;;
  return_ None.

Inductive outcome :=
| Returns (err : option error)
| Panics (msg : string).

(** [Parse()]: how the call ends, and the world it leaves. *)
Definition Parse (p : Package) (env : Env) (w : World) : outcome * World :=
  match Parse_body p env w with
  | (Val _, w') => (Returns None, w')
  | (Return e, w') => (Returns e, w')
  | (Panic msg, w') => (Panics msg, w')
  end.

End cmdparser.

#[export] Existing Instance M_ret.
#[export] Existing Instance M_bind.

(** ** A concrete Go library for closed examples

    The statements of this development hold for every implementation
    of [Float64] and [JSON].  To evaluate the package on concrete
    inputs one implementation is fixed here.  Its [float64] holds only
    the floats with an integer value below [2^53], which are exact, and
    it prints them as [fmt] does; its JSON codec follows
    [encoding/json] on the texts that [String()] can produce (arrays of
    string literals), on [null] and on the empty text, for strings of
    bytes below [0x80]. *)

Module Go.

Import strconv.

(** *** Integral floats *)

Fixpoint strip_zeros_rev (l : list ascii) : list ascii :=
  match l with
  | "0"%char :: l' => strip_zeros_rev l'
  | _ => l
  end.

(** The digits that identify the float: trailing zeros are dropped. *)
Definition shortest (digits : list ascii) : list ascii := rev (strip_zeros_rev (rev digits)).

(** The exponent as [%e] writes it: a sign and at least two digits. *)
Definition fmt_exp (e : Z) : string :=
  "e+" +:+ (if e <? 10 then "0" else EmptyString) +:+ formatBits 20 e EmptyString.

(** [fmt.Sprintf("%v", f)], which is [%g] with the shortest precision:
    [%e] is used when the exponent is at least 6 (or below -4, which an
    integer never has), [%f] otherwise. *)
Definition FormatIntegral (n : Z) : string :=
  let digits := list_ascii_of_string (formatBits 20 (Z.abs n) EmptyString) in
  let exp := base64.len digits - 1 in
  let sign := if n <? 0 then "-" else EmptyString in
  if exp <? 6 then sign +:+ string_of_list_ascii digits
  else
    match shortest digits with
    | [] => sign +:+ string_of_list_ascii digits
    | [d] => sign +:+ String d (fmt_exp exp)
    | d :: ds => sign +:+ String d ("." +:+ string_of_list_ascii ds +:+ fmt_exp exp)
    end.

(** The decimal digits at the front of a text: their value read on
    after [n], their number added to [k], and the rest of the text. *)
Fixpoint read_digits (s : string) (n k : Z) : Z * Z * string :=
  match s with
  | String c r =>
      let v := byte_val c - 48 in
      if (0 <=? v) && (v <=? 9) then read_digits r (n * 10 + v) (k + 1) else (n, k, s)
  | EmptyString => (n, k, s)
  end.

(** An optional sign at the front of a text. *)
Definition read_sign (s : string) : bool * string :=
  match s with
  | String "-" r => (true, r)
  | String "+" r => (false, r)
  | _ => (false, s)
  end.

(** The exponent part of a decimal float: nothing, or [e] or [E], an
    optional sign and at least one digit. *)
Definition read_exponent (s : string) : option Z :=
  match s with
  | EmptyString => Some 0
  | String c r =>
      if bool_decide (c = "e"%char ∨ c = "E"%char) then
        let '(neg, ds) := read_sign r in
        match read_digits ds 0 0 with
        | (e, k, EmptyString) => if 0 <? k then Some (if neg then - e else e) else None
        | _ => None
        end
      else None
  end.

(** The digits after a decimal point, read on after the integer part
    [m]: the value, the number of fraction digits and the rest. *)
Definition read_fraction (s : string) (m : Z) : Z * Z * string :=
  match s with
  | String "." r => read_digits r m 0
  | _ => (m, 0, s)
  end.

(** The integer [m * 10 ^ shift], when it is one. *)
Definition integral (m shift : Z) : option Z :=
  if 0 <=? shift then Some (m * 10 ^ shift)
  else if m mod 10 ^ (- shift) =? 0 then Some (m / 10 ^ (- shift))
  else None.

(** [strconv.ParseFloat] on the decimal texts, with or without a
    fraction and an exponent, that denote an integer below [2 ^ 53];
    any other text is outside this implementation and is reported as
    a syntax error. *)
Definition ParseIntegral (s : string) : Z * option NumErrKind :=
  let '(neg, body) := read_sign s in
  let '(m1, k1, r1) := read_digits body 0 0 in
  let '(m, kf, r2) := read_fraction r1 m1 in
  match read_exponent r2 with
  | Some e =>
      match integral m (e - kf) with
      | Some n =>
          if (0 <? k1 + kf) && (n <? 2 ^ 53) then (if neg then - n else n, None)
          else (0, Some ErrSyntax)
      | None => (0, Some ErrSyntax)
      end
  | None => (0, Some ErrSyntax)
  end.

#[export] Instance F64 : Float64 := {|
  float64 := Z;
  float_zero := 0;
  FormatFloat := FormatIntegral;
  ParseFloat := ParseIntegral;
  float_of_int := fun n => n;
|}.

(** *** JSON *)

Definition dq : ascii := "034"%char.
Definition nl : ascii := "010"%char.
Definition tab : ascii := "009"%char.
Definition cr : ascii := "013"%char.
Definition bs : ascii := "092"%char.

Definition hex (n : Z) : ascii :=
  nth (Z.to_nat n) (list_ascii_of_string "0123456789abcdef") "0"%char.

(** How the encoder writes one byte of a string. *)
Definition escape (c : ascii) : list ascii :=
  let b := byte_val c in
  if bool_decide (c = bs ∨ c = dq) then [bs; c]
  else if bool_decide (c = nl) then [bs; "n"%char]
  else if bool_decide (c = cr) then [bs; "r"%char]
  else if bool_decide (c = tab) then [bs; "t"%char]
  else if (b <? 32) || bool_decide (c = "<"%char ∨ c = ">"%char ∨ c = "&"%char)
  then [bs; "u"%char; "0"%char; "0"%char; hex (Z.shiftr b 4); hex (Z.land b 15)]
  else [c].

Definition quote (s : string) : list ascii :=
  dq :: concat (escape <$> list_ascii_of_string s) ++ [dq].

Fixpoint join (sep : list ascii) (l : list (list ascii)) : list ascii :=
  match l with
  | [] => []
  | [x] => x
  | x :: l' => x ++ sep ++ join sep l'
  end.

Definition Marshal (l : list string) : string :=
  string_of_list_ascii ("["%char :: join [","%char] (quote <$> l) ++ ["]"%char]).

Definition is_ws (c : ascii) : bool :=
  bool_decide (c = " "%char ∨ c = tab ∨ c = cr ∨ c = nl).

Fixpoint skip_ws (l : list ascii) : list ascii :=
  match l with
  | c :: l' => if is_ws c then skip_ws l' else l
  | [] => []
  end.

Definition unhex (c : ascii) : option Z :=
  match digit_val c with
  | Some v => if v <? 16 then Some v else None
  | None => None
  end.

(** The byte of a one-letter escape. *)
Definition unescape (e : ascii) : option ascii :=
  if bool_decide (e = dq ∨ e = bs ∨ e = "/"%char) then Some e
  else if bool_decide (e = "n"%char) then Some nl
  else if bool_decide (e = "r"%char) then Some cr
  else if bool_decide (e = "t"%char) then Some tab
  else if bool_decide (e = "b"%char) then Some "008"%char
  else if bool_decide (e = "f"%char) then Some "012"%char
  else None.

(** A string literal after its opening quote: its bytes and the text
    after the closing quote. *)
Fixpoint string_lit (l : list ascii) : option (list ascii * list ascii) :=
  match l with
  | [] => None
  | c :: l' =>
      if bool_decide (c = dq) then Some ([], l')
      else if bool_decide (c = bs) then
        match l' with
        | [] => None
        | e :: l'' =>
            match unescape e with
            | Some b => r ← string_lit l''; Some (b :: r.1, r.2)
            | None =>
                match e, l'' with
                | "u"%char, h1 :: h2 :: h3 :: h4 :: l3 =>
                    match unhex h1, unhex h2, unhex h3, unhex h4 with
                    | Some 0, Some 0, Some a, Some b =>
                        if a <? 8 then r ← string_lit l3; Some (byte_of (16 * a + b) :: r.1, r.2)
                        else None
                    | _, _, _, _ => None
                    end
                | _, _ => None
                end
            end
        end
      else if byte_val c <? 32 then None
      else r ← string_lit l'; Some (c :: r.1, r.2)
  end.

(** The elements of an array that is not empty, and the text after its
    closing bracket. *)
Fixpoint elements (fuel : nat) (l : list ascii) : option (list string * list ascii) :=
  match fuel with
  | O => None
  | S f =>
      match skip_ws l with
      | c :: l1 =>
          if bool_decide (c = dq) then
            r ← string_lit l1;
            match skip_ws r.2 with
            | ","%char :: l3 => r' ← elements f l3; Some (string_of_list_ascii r.1 :: r'.1, r'.2)
            | "]"%char :: l3 => Some ([string_of_list_ascii r.1], l3)
            | _ => None
            end
          else None
      | [] => None
      end
  end.

Definition at_end (l : list ascii) : bool :=
  match skip_ws l with [] => true | _ => false end.

Definition Unmarshal (v : string) (cur : slice string) : slice string * option string :=
  let text := list_ascii_of_string v in
  match skip_ws text with
  | [] => (cur, Some "unexpected end of JSON input")
  | "["%char :: l1 =>
      match skip_ws l1 with
      | "]"%char :: l2 => if at_end l2 then (Some [], None) else (cur, Some "invalid character")
      | _ =>
          match elements (length l1) l1 with
          | Some (ss, l2) => if at_end l2 then (Some ss, None) else (cur, Some "invalid character")
          | None => (cur, Some "invalid character")
          end
      end
  | "n"%char :: "u"%char :: "l"%char :: "l"%char :: l1 =>
      if at_end l1 then (None, None) else (cur, Some "invalid character")
  | _ => (cur, Some "invalid character")
  end.

(** One value of the map at depth one of the indented output. *)
Definition render (x : @native F64) : list ascii :=
  match x with
  | NBool b => list_ascii_of_string (if b then "true" else "false")
  | NInt64 i => list_ascii_of_string (FormatInt i)
  | NFloat64 f => list_ascii_of_string (FormatInt f)
  | NString s => quote s
  | NStrings None => list_ascii_of_string "null"
  | NStrings (Some []) => list_ascii_of_string "[]"
  | NStrings (Some l) =>
      "["%char :: nl :: tab :: tab :: join [","%char; nl; tab; tab] (quote <$> l)
        ++ [nl; tab; "]"%char]
  | NBytes None => list_ascii_of_string "null"
  | NBytes (Some b) => quote (base64.EncodeToString b)
  end.

Definition key_le (a b : string * @native F64) : Prop := String.leb a.1 b.1 = true.

#[local] Instance key_le_dec a b : Decision (key_le a b).
Proof. unfold key_le. apply _. Defined.

(** Keys are written in sorted order, one entry per line. *)
Definition Indent (m : gmap string (@native F64)) : string * option string :=
  match merge_sort key_le (map_to_list m) with
  | [] => ("{}", None)
  | l =>
      (string_of_list_ascii
         ("{"%char :: nl :: tab ::
            join [","%char; nl; tab]
              ((fun kv => quote kv.1 ++ [":"%char; " "%char] ++ render kv.2) <$> l)
            ++ [nl; "}"%char]),
       None)
  end.

#[export] Instance Json : @JSON F64 := {|
  Marshal_strings := Marshal;
  Unmarshal_strings := Unmarshal;
  MarshalIndent := Indent;
|}.

End Go.

(** * The vocabulary of the statements *)

Module strconv_spec.

Import strconv.

(** The power of ten that [formatBits] spans: ten to the number of
    digits it writes. *)
Fixpoint scale (fuel : nat) (u : Z) : Z :=
  match fuel with
  | O => 1
  | S f => if u <? 10 then 10 else 10 * scale f (u / 10)
  end.

(** The number that decimal digits denote, read on after [n]. *)
Definition value (l : list ascii) (n : Z) : Z :=
  fold_left (fun a c => a * 10 + (byte_val c - 48)) l n.

Definition digit (c : ascii) : Prop := 48 <= byte_val c <= 57.

(** The text does not go on with a digit. *)
Definition stops (s : string) : Prop :=
  match s with
  | String c _ => ~ digit c
  | EmptyString => True
  end.


End strconv_spec.

Module quantum.

Import strconv base64.

(** Every byte, for checks by enumeration. *)
Definition all_bytes : list ascii := map ascii_of_nat (seq 0 256).

(** The four sextets of a quantum, as [Encode] computes them. *)
Definition b0 (s0 : ascii) : Z := Z.shiftr (byte_val s0) 2.

Definition b1 (s0 s1 : ascii) : Z :=
  Z.lor (Z.shiftr (byte_val s1) 4) (Z.land (shl8 (byte_val s0) 4) 63).

Definition b2 (s1 s2 : ascii) : Z :=
  Z.lor (Z.shiftr (byte_val s2) 6) (Z.land (shl8 (byte_val s1) 2) 63).

Definition b3 (s2 : ascii) : Z := Z.land (byte_val s2) 63.

Definition b1_last (s0 : ascii) : Z := Z.land (shl8 (byte_val s0) 4) 63.

Definition b2_last (s1 : ascii) : Z := Z.land (shl8 (byte_val s1) 2) 63.

Definition sextet (b : Z) : bool := (0 <=? b) && (b <? 64).

(** A character of the alphabet decodes to its index and is neither
    padding nor rejected. *)
Definition char_ok (b : Z) : bool :=
  negb (is_pad (encode b)) && negb (bad (encode b)) && (decodeMap (encode b) =? b).

End quantum.

(** The errors of [strconv] and [encoding/base64]. *)
Definition lib_error (e : error) : Prop :=
  match e with
  | NumError _ _ _ | CorruptInputError _ => True
  | _ => False
  end.

Section vocabulary.

Context `{JSON}.



(** An [intOption] holds an [int64]. *)
Definition in_range (v : optionValue) : Prop :=
  match v with
  | intOption i => - 2 ^ 63 <= i < 2 ^ 63
  | _ => True
  end.



(** The strings at the front of a decoded array, up to its first
    element that is not a string, and that element. *)
Fixpoint leading_strings (t : list json) : list string :=
  match t with
  | JString s :: t' => s :: leading_strings t'
  | _ => []
  end.

Fixpoint first_other (t : list json) : option json :=
  match t with
  | [] => None
  | JString _ :: t' => first_other t'
  | x :: _ => Some x
  end.

(** The panic of the type assertion [s.(string)] on the value. *)
Definition not_string (x : json) : string :=
  "interface conversion: interface {} is " +:+ dynamic_type x +:+ ", not string".

(** The decoded value is a boolean, a number or a string. *)
Definition is_scalar (t : json) : bool :=
  match t with
  | JBool _ | JNumber _ | JString _ => true
  | _ => false
  end.

(** The command is named by the second element of [Args]. *)
Definition named_by (args : list string) (c : CmdCommand) : bool :=
  bool_decide (Some (Command c) = args !! 1%nat) && bool_decide (Command c ≠ EmptyString).

Definition unnamed (c : CmdCommand) : bool := bool_decide (Command c = EmptyString).

(** What the resolution loop computes: the first command named by
    [Args[1]], else the last command with the empty name. *)
Definition resolved (args : list string) (l : list CmdCommand) : option CmdCommand :=
  match find (named_by args) l with
  | Some c => Some c
  | None => last (filter (fun c => unnamed c = true) l)
  end.

(** The option is required and the text of its variable is its default. *)
Definition unset (h : Heap) (o : CmdOption) : bool :=
  match deref h (Value o) with
  | Some v => has_flag (Flags o) Required && bool_decide (String' v = Default o)
  | None => false
  end.

Definition dangling (h : Heap) (o : CmdOption) : bool :=
  match deref h (Value o) with Some _ => false | None => true end.


(** Every [return] of the computation gives a result in [Q]. *)
Definition returns_only {A} (Q : option error -> Prop) (m : M A) : Prop :=
  forall w e w', m w = (Return e, w') -> Q e.

(** The result is not the error of the required-option check. *)
Definition not_missing (e : option error) : Prop :=
  forall n, e <> Some (MissingRequiredOption n).

(** The first option, in registration order, that is required and
    unset or that has no variable. *)
Definition first_unset (p : Package) (h : Heap) : option CmdOption :=
  find (fun o => dangling h o || unset h o) (optionList p).

Definition with_heap (w : World) (h : Heap) : World :=
  {| heap := h; Args := Args w; trace := trace w |}.

(** [Set] for each string in turn, stopping at the first error. *)
Fixpoint set_all (v : optionValue) (ss : list string) : optionValue * option error :=
  match ss with
  | [] => (v, None)
  | s :: ss' =>
      match Set' v s with
      | (v', None) => set_all v' ss'
      | r => r
      end
  end.

(** The tokens that the scan takes before it looks for an option. *)
Definition sentinel (p : Package) (tok : string) : bool :=
  bool_decide (tok = "-?" ∨ tok = "-h" ∨ tok = "-H")
  || bool_decide (tok = "-version")
  || bool_decide (tok = "--")
  || (bool_decide (OptionsFile p ≠ EmptyString) && bool_decide (tok = "-saveoptions"))
  || (bool_decide (OptionsFile p ≠ EmptyString) && bool_decide (tok = "-showoptions")).

Definition starts_with_dash (s : string) : bool :=
  match s with
  | String c _ => bool_decide (c = "-"%char)
  | EmptyString => false
  end.

(** What the lookahead of a boolean option decides from the token that
    follows it: the value, and whether that token is consumed. *)
Definition bool_value (next : option string) : string * bool :=
  match next with
  | Some n =>
      if starts_with_dash n then ("true", false)
      else
        match strconv.ParseBool n with
        | (_, None) => (n, true)
        | (_, Some _) => ("true", false)
        end
  | None => ("true", false)
  end.

(** The tokens left to scan after an option token. *)
Definition after (consumed : bool) (rest : list string) : list string :=
  if consumed then tail rest else rest.

(** The option is to be saved: it has the Preference flag and the text
    of its variable is not its captured default. *)
Definition to_save (h : Heap) (o : CmdOption) : Prop :=
  exists x, deref h (Value o) = Some x
            /\ has_flag (Flags o) Preference = true /\ String' x <> Default o.

End vocabulary.

(** * Packages for the closed examples

    Each package is built with the registration functions, on the
    concrete library [Go]. *)

Module Examples.

Definition world (h : list (@optionValue Go.F64)) : @World Go.F64 :=
  {| heap := h; Args := []; trace := [] |}.

Definition env (args : list string) (f : @optionsFile Go.F64) : @Env Go.F64 :=
  {| os_Args := args; file := f; write_err := None |}.

Definition empty_pkg (optionsFile : string) : @Package Go.F64 :=
  {| Title := EmptyString; OptionsFile := optionsFile; commandList := []; optionList := [] |}.

Definition registered (p : option (@Package Go.F64)) : @Package Go.F64 :=
  default (empty_pkg EmptyString) p.

Definition handler : @hook Go.F64 := fun h => h.

Definition no_option : @CmdOption Go.F64 :=
  {| Name := EmptyString; Group := EmptyString; Format := EmptyString; Help := EmptyString;
     Value := 0; Default := EmptyString; Flags := Standard;
     onChange := None; onSave := None |}.

(** The definition that [Parse] finds for a name. *)
Definition registered_option (p : @Package Go.F64) (name : string) : @CmdOption Go.F64 :=
  default no_option (lookup_option (optionList p) name).

(** [var beVerbose bool; BoolOption("verbose", ...)], with a default
    command and a command [copy]. *)
Definition flag_heap : list (@optionValue Go.F64) := [boolOption false].

Definition flag_pkg : @Package Go.F64 :=
  addCommand "copy" "Copy files" (Some handler)
    (addCommand EmptyString EmptyString (Some handler)
       (registered
          (addOption (H0 := Go.Json) "verbose" EmptyString EmptyString "Show verbose output" 0 Standard
             flag_heap (empty_pkg EmptyString)))).

(** [var tags []string; StringListOption("tag", ...)]: the variable is
    nil when the option is registered. *)
Definition tag_heap : list (@optionValue Go.F64) := [stringListOption None].

Definition tag_pkg : @Package Go.F64 :=
  addCommand EmptyString EmptyString None
    (registered
       (addOption (H0 := Go.Json) "tag" EmptyString "<tag>" "Add a tag" 0 Standard
          tag_heap (empty_pkg EmptyString))).

(** [var size int64; IntOption("size", ..., Preference)], with an
    options file. *)
Definition size_heap : list (@optionValue Go.F64) := [intOption 0].

Definition size_pkg : @Package Go.F64 :=
  addCommand EmptyString EmptyString None
    (registered
       (addOption (H0 := Go.Json) "size" EmptyString "<bytes>" "Size" 0 Preference
          size_heap (empty_pkg "options.json"))).

(** The same with [.OnChange(...)] on the option: the callback leaves
    the variables alone, and its calls show in the trace. *)
Definition watched_size_pkg : @Package Go.F64 :=
  {| Title := Title size_pkg; OptionsFile := OptionsFile size_pkg;
     commandList := commandList size_pkg;
     optionList := OnChange handler <$> optionList size_pkg |}.

(** [var user string; StringOption("user", ..., Required)], first with
    no command at all, then with a default command. *)
Definition user_heap : list (@optionValue Go.F64) := [stringOption EmptyString].

Definition user_pkg : @Package Go.F64 :=
  registered
    (addOption (H0 := Go.Json) "user" EmptyString "<username>" "Username" 0 Required
       user_heap (empty_pkg EmptyString)).

Definition user_cmd_pkg : @Package Go.F64 :=
  addCommand EmptyString EmptyString (Some handler) user_pkg.

End Examples.

(** * More of the package: the help text *)

(** A call of [fmt.Printf], [fmt.Println] or [fmt.Print] with string
    operands: the format (empty for the last two) and the operands.
    What [fmt] writes for it is the library's matter. *)
Inductive print_call :=
| Printf (format : string) (operands : list string)
| Println (operands : list string)
| Print (operands : list string).

(** The line feed that the source writes as an escape in its formats. *)
Definition LF : string := String "010"%char EmptyString.

Section usage.

Context `{JSON}.

(** [printOption] (src/cmdparser.go:57-79); the type switch reads the
    type of the pointer, which is the kind of the variable (an option
    without a variable, which registration excludes, is taken to the
    default case). *)
Definition printOption (h : Heap) (n : CmdOption) : list print_call :=
  [Printf "  -%s" [Name n]]
  ++ (if bool_decide (Format n ≠ EmptyString) then [Printf "=%s" [Format n]] else [])
  ++ [Printf (LF +:+ "        %s") [Help n]]
  ++ (if 0 <? Z.land (Flags n) Preference then [Printf " (*)" []] else [])
  ++ match kind_of <$> deref h (Value n) with
     | Some KBool =>
         if bool_decide (Default n = "true") then [Printf " (default ON)" []] else []
     | Some KStringList => []
     | _ =>
         if bool_decide (Default n ≠ EmptyString)
         then [Printf " (default %s)" [Default n]] else []
     end
  ++ [Print [LF]].

Definition visible (n : CmdOption) : bool := Z.land (Flags n) Hidden =? 0.

(** The loop over the options of one command group (lines 97-105):
    the header is printed before the first option that is listed. *)
Fixpoint group_options (h : Heap) (g : string) (l : list CmdOption) (printedHeader : bool)
    : list print_call :=
  match l with
  | [] => []
  | n :: l' =>
      if visible n && bool_decide (Group n = g) then
        (if printedHeader then [] else [Printf ("%s options:" +:+ LF) [g]])
        ++ printOption h n ++ group_options h g l' true
      else group_options h g l' printedHeader
  end.

(** [Usage()] (lines 48-109), as the calls it makes to [fmt]. *)
Definition Usage (commandName : string) (p : Package) (h : Heap) : list print_call :=
  (if bool_decide (Title p ≠ EmptyString) then [Printf (Title p +:+ LF +:+ LF) []] else [])
  ++ [Println ["Usage:"]]
  ++ ((fun n => Printf ("  %s [options] %s %s" +:+ LF) [commandName; Command n; CommandHelp n])
        <$> commandList p)
  ++ [Println [LF +:+ "Options:"]]
  ++ concat ((fun n => if visible n && bool_decide (Group n = EmptyString)
                       then printOption h n else []) <$> optionList p)
  ++ (if bool_decide (OptionsFile p ≠ EmptyString)
      then [Printf (LF +:+ "  -saveoptions" +:+ LF +:+ "        Save (*) options to %s" +:+ LF)
               [OptionsFile p];
            Printf ("  -showoptions" +:+ LF +:+ "        Show saved options" +:+ LF) []]
      else [])
  ++ (if bool_decide (Title p ≠ EmptyString)
      then [Println ["  -version" +:+ LF +:+ "        Show current version"]] else [])
  ++ [Println []]
  ++ concat ((fun g => if bool_decide (Command g ≠ EmptyString)
                       then group_options h (Command g) (optionList p) false else [])
               <$> commandList p).

(** * More vocabulary *)

(** The string has the byte. *)
Fixpoint contains (c : ascii) (s : string) : bool :=
  match s with
  | EmptyString => false
  | String x r => bool_decide (x = c) || contains c r
  end.

(** The name that an option token gives: [pair[0]]. *)
Definition option_name (body : string) : string :=
  default EmptyString (head (Split body "="%char)).

(** What the [if len(pair) == 2] block does with the value: a reset
    for the empty text, [Set] otherwise. *)
Definition applied (v : optionValue) (value : string) : optionValue * option error :=
  if bool_decide (value = EmptyString) then (Reset v, None) else Set' v value.

(** What the lookahead of an integer, float, string or byte option
    decides from the token that follows it: the value, and whether that
    token is consumed. *)
Definition scalar_value (o : CmdOption) (next : option string) : string * bool :=
  match next with
  | Some n => if starts_with_dash n then (Default o, false) else (n, true)
  | None => (Default o, false)
  end.

(** The value as a bare option restores it: an empty byte slice comes
    back nil. *)
Definition restored (v : optionValue) : optionValue :=
  match v with
  | byteOption b => byteOption (match elems b with [] => None | l => Some l end)
  | _ => v
  end.

(** The token is neither empty nor an option. *)
Definition plain (tok : string) : bool :=
  match tok with
  | EmptyString => false
  | String c _ => negb (bool_decide (c = "-"%char))
  end.

(** The world after one more event. *)
Definition add_event (w : World) (e : event) : World :=
  {| heap := heap w; Args := Args w; trace := trace w ++ [e] |}.

End usage.

(** * Properties of the library models *)

Module strconv_facts.

Import strconv strconv_spec.

Lemma digit_val_digit d :
  0 <= d < 10 -> digit_val (byte_of (48 + d)) = Some d.
Proof.
  intros Hd.
  assert (Hc : d = 0 \/ d = 1 \/ d = 2 \/ d = 3 \/ d = 4 \/ d = 5 \/ d = 6
               \/ d = 7 \/ d = 8 \/ d = 9) by lia.
  repeat (destruct Hc as [-> | Hc]; [reflexivity |]). subst. reflexivity.
Qed.

Lemma scale_pos fuel u : 0 < scale fuel u.
Proof.
  revert u. induction fuel as [| f IH]; intros u; simpl; [lia |].
  destruct (u <? 10); [lia |]. specialize (IH (u / 10)). lia.
Qed.

(** One iteration of the loop of [ParseUint] in base 10 when nothing
    overflows. *)
Lemma uint_loop_step d rest n :
  0 <= d < 10 -> 0 <= n -> n * 10 + d <= maxUint64 ->
  uint_loop 10 (String (byte_of (48 + d)) rest) n = uint_loop 10 rest (n * 10 + d).
Proof.
  intros Hd Hn Hmax. unfold maxUint64 in Hmax.
  cbn [uint_loop]. rewrite digit_val_digit by assumption.
  replace (10 <=? d) with false by (symmetry; apply Z.leb_gt; lia).
  replace (maxUint64 / 10 + 1 <=? n) with false.
  2:{ symmetry. apply Z.leb_gt. unfold maxUint64.
      change ((2 ^ 64 - 1) / 10) with 1844674407370955161. lia. }
  cbv zeta.
  rewrite (Z.mod_small (n * 10)) by lia.
  rewrite (Z.mod_small (n * 10 + d)) by lia.
  replace (n * 10 + d <? n * 10) with false by (symmetry; apply Z.ltb_ge; lia).
  replace (maxUint64 <? n * 10 + d) with false
    by (symmetry; apply Z.ltb_ge; unfold maxUint64; lia).
  reflexivity.
Qed.

(** Reading back what [formatBits] wrote continues from the number it
    wrote. *)
Lemma uint_loop_formatBits fuel : forall u acc n,
  0 <= u < 10 ^ Z.of_nat fuel -> 0 <= n ->
  n * scale fuel u + u <= maxUint64 ->
  uint_loop 10 (formatBits fuel u acc) n = uint_loop 10 acc (n * scale fuel u + u).
Proof.
  induction fuel as [| f IH]; intros u acc n Hu Hn Hmax.
  - simpl in *. assert (u = 0) by lia. subst. f_equal. lia.
  - cbn [formatBits scale] in *.
    destruct (Z.ltb_spec u 10) as [Hlt | Hge].
    + apply uint_loop_step; lia.
    + assert (Hq : 0 <= u / 10 < 10 ^ Z.of_nat f).
      { split; [apply Z.div_pos; lia |].
        apply Z.div_lt_upper_bound; [lia |].
        rewrite Nat2Z.inj_succ, Z.pow_succ_r in Hu by lia. lia. }
      pose proof (Z.div_mod u 10 ltac:(lia)) as Hdm.
      pose proof (Z.mod_pos_bound u 10 ltac:(lia)) as Hm.
      pose proof (scale_pos f (u / 10)) as Hs.
      rewrite IH by (try assumption; nia).
      rewrite uint_loop_step by (try assumption; nia).
      f_equal. lia.
Qed.

Lemma formatBits_head fuel : forall u acc,
  0 < u < 10 ^ Z.of_nat fuel ->
  exists d r, 1 <= d <= 9 /\ formatBits fuel u acc = String (byte_of (48 + d)) r.
Proof.
  induction fuel as [| f IH]; intros u acc Hu.
  - simpl in Hu. lia.
  - cbn [formatBits]. destruct (Z.ltb_spec u 10) as [Hlt | Hge].
    + exists u, acc. split; [lia | reflexivity].
    + apply IH. split.
      * apply Z.div_str_pos. lia.
      * apply Z.div_lt_upper_bound; [lia |].
        rewrite Nat2Z.inj_succ, Z.pow_succ_r in Hu by lia. lia.
Qed.


Lemma ParseUint_formatBits u :
  0 <= u <= maxUint64 -> ParseUint (formatBits 20 u EmptyString) = (u, None).
Proof.
  intros Hu. unfold maxUint64 in Hu.
  assert (Hpow : 2 ^ 64 - 1 < 10 ^ Z.of_nat 20) by (vm_compute; reflexivity).
  destruct (Z.eq_dec u 0) as [-> | Hnz]; [reflexivity |].
  destruct (formatBits_head 20 u EmptyString ltac:(lia)) as (d & r & Hd & Heq).
  assert (Hloop : uint_loop 10 (formatBits 20 u EmptyString) 0 = (u, None)).
  { pose proof (scale_pos 20 u) as Hs.
    rewrite (uint_loop_formatBits 20 u EmptyString 0)
      by (unfold maxUint64; lia).
    cbn [uint_loop]. reflexivity. }
  rewrite Heq in *.
  assert (Hc : d = 1 \/ d = 2 \/ d = 3 \/ d = 4 \/ d = 5 \/ d = 6
               \/ d = 7 \/ d = 8 \/ d = 9) by lia.
  repeat (destruct Hc as [-> | Hc]; [exact Hloop |]). subst. exact Hloop.
Qed.

(** [ParseInt] reads back every [int64] that [FormatInt] printed. *)
Lemma ParseInt_FormatInt i :
  - 2 ^ 63 <= i < 2 ^ 63 -> ParseInt (FormatInt i) = (i, None).
Proof.
  intros Hi. unfold FormatInt.
  destruct (Z.ltb_spec i 0) as [Hneg | Hpos].
  - unfold ParseInt.
    rewrite (bool_decide_eq_true_2 (_ = _)) by reflexivity.
    rewrite (bool_decide_eq_true_2 (_ ∨ _)) by (right; reflexivity).
    rewrite ParseUint_formatBits by (unfold maxUint64; lia).
    cbn [negb andb].
    replace (2 ^ 63 <? - i) with false by (symmetry; apply Z.ltb_ge; lia).
    f_equal. lia.
  - destruct (Z.eq_dec i 0) as [-> | Hnz]; [reflexivity |].
    pose proof (ParseUint_formatBits i ltac:(unfold maxUint64; lia)) as HP.
    assert (Hpow : 2 ^ 63 < 10 ^ Z.of_nat 20) by (vm_compute; reflexivity).
    destruct (formatBits_head 20 i EmptyString ltac:(lia)) as (d & r & Hd & Heq).
    rewrite Heq in *. unfold ParseInt.
    assert (Hc : d = 1 \/ d = 2 \/ d = 3 \/ d = 4 \/ d = 5 \/ d = 6
                 \/ d = 7 \/ d = 8 \/ d = 9) by lia.
    assert (Hsign : bool_decide (byte_of (48 + d) = "+"%char ∨ byte_of (48 + d) = "-"%char) = false
                    /\ bool_decide (byte_of (48 + d) = "-"%char) = false).
    { repeat (destruct Hc as [-> | Hc]; [split; reflexivity |]). subst. split; reflexivity. }
    destruct Hsign as [-> ->]. rewrite HP. cbn [negb andb].
    replace (2 ^ 63 <=? i) with false by (symmetry; apply Z.leb_gt; lia).
    reflexivity.
Qed.

End strconv_facts.

Module base64_facts.

Import strconv base64 quantum.

Lemma all_bytes_complete a : In a all_bytes.
Proof.
  unfold all_bytes. rewrite <- (ascii_nat_embedding a).
  apply in_map, in_seq. pose proof (nat_ascii_bounded a). lia.
Qed.

Lemma forall_byte (P : ascii -> bool) :
  forallb P all_bytes = true -> forall a, P a = true.
Proof.
  intros HP a. rewrite forallb_forall in HP. apply HP, all_bytes_complete.
Qed.

Lemma forall_byte2 (P : ascii -> ascii -> bool) :
  forallb (fun a => forallb (P a) all_bytes) all_bytes = true ->
  forall a b, P a b = true.
Proof.
  intros HP a b. apply forall_byte. revert a. apply forall_byte. exact HP.
Qed.

Lemma sextet_spec b : sextet b = true <-> 0 <= b < 64.
Proof. unfold sextet. rewrite andb_true_iff, Z.leb_le, Z.ltb_lt. tauto. Qed.

Lemma encode_ok b :
  0 <= b < 64 ->
  is_pad (encode b) = false /\ bad (encode b) = false /\ decodeMap (encode b) = b.
Proof.
  intros Hb.
  assert (Hall : forallb (fun n => char_ok (Z.of_nat n)) (seq 0 64) = true)
    by (vm_compute; reflexivity).
  rewrite forallb_forall in Hall.
  specialize (Hall (Z.to_nat b)). rewrite Z2Nat.id in Hall by lia.
  assert (Hin : In (Z.to_nat b) (seq 0 64)) by (apply in_seq; lia).
  apply Hall in Hin. unfold char_ok in Hin.
  rewrite !andb_true_iff, !negb_true_iff, Z.eqb_eq in Hin. tauto.
Qed.

Lemma b0_range s0 : 0 <= b0 s0 < 64.
Proof.
  apply sextet_spec. revert s0. apply forall_byte. vm_compute. reflexivity.
Qed.

Lemma b3_range s2 : 0 <= b3 s2 < 64.
Proof.
  apply sextet_spec. revert s2. apply forall_byte. vm_compute. reflexivity.
Qed.

Lemma b1_last_range s0 : 0 <= b1_last s0 < 64.
Proof.
  apply sextet_spec. revert s0. apply forall_byte. vm_compute. reflexivity.
Qed.

Lemma b2_last_range s1 : 0 <= b2_last s1 < 64.
Proof.
  apply sextet_spec. revert s1. apply forall_byte. vm_compute. reflexivity.
Qed.

Lemma b1_range s0 s1 : 0 <= b1 s0 s1 < 64.
Proof.
  apply sextet_spec. revert s0 s1. apply forall_byte2. vm_compute. reflexivity.
Qed.

Lemma b2_range s1 s2 : 0 <= b2 s1 s2 < 64.
Proof.
  apply sextet_spec. revert s1 s2. apply forall_byte2. vm_compute. reflexivity.
Qed.

(** The three bytes that [decode] packs are the ones [Encode] unpacked. *)
Lemma dst0_b s0 s1 : dst0 (b0 s0) (b1 s0 s1) = s0.
Proof.
  apply Ascii.eqb_eq. revert s0 s1.
  apply (forall_byte2 (fun s0 s1 => Ascii.eqb (dst0 (b0 s0) (b1 s0 s1)) s0)).
  vm_compute. reflexivity.
Qed.

Lemma dst0_last s0 : dst0 (b0 s0) (b1_last s0) = s0.
Proof.
  apply Ascii.eqb_eq. revert s0.
  apply (forall_byte (fun s0 => Ascii.eqb (dst0 (b0 s0) (b1_last s0)) s0)).
  vm_compute. reflexivity.
Qed.

(** The high half of the second byte does not depend on the first
    source byte. *)
Lemma shl8_b1 s0 s1 : shl8 (b1 s0 s1) 4 = shl8 (Z.shiftr (byte_val s1) 4) 4.
Proof.
  apply Z.eqb_eq. revert s0 s1.
  apply (forall_byte2 (fun s0 s1 =>
           shl8 (b1 s0 s1) 4 =? shl8 (Z.shiftr (byte_val s1) 4) 4)).
  vm_compute. reflexivity.
Qed.

Lemma dst1_b s0 s1 s2 : dst1 (b1 s0 s1) (b2 s1 s2) = s1.
Proof.
  unfold dst1. rewrite shl8_b1.
  apply Ascii.eqb_eq. revert s1 s2.
  apply (forall_byte2 (fun s1 s2 =>
           Ascii.eqb (byte_of (Z.lor (shl8 (Z.shiftr (byte_val s1) 4) 4)
                                     (Z.shiftr (b2 s1 s2) 2))) s1)).
  vm_compute. reflexivity.
Qed.

Lemma dst1_last s0 s1 : dst1 (b1 s0 s1) (b2_last s1) = s1.
Proof.
  unfold dst1. rewrite shl8_b1.
  apply Ascii.eqb_eq. revert s1.
  apply (forall_byte (fun s1 =>
           Ascii.eqb (byte_of (Z.lor (shl8 (Z.shiftr (byte_val s1) 4) 4)
                                     (Z.shiftr (b2_last s1) 2))) s1)).
  vm_compute. reflexivity.
Qed.

Lemma dst2_b s1 s2 : dst2 (b2 s1 s2) (b3 s2) = s2.
Proof.
  apply Ascii.eqb_eq. revert s1 s2.
  apply (forall_byte2 (fun s1 s2 => Ascii.eqb (dst2 (b2 s1 s2) (b3 s2)) s2)).
  vm_compute. reflexivity.
Qed.

(** A quantum of four accepted characters followed by more input. *)
Lemma decode_quantum olen c0 c1 c2 c3 rest :
  is_pad c0 = false -> bad c0 = false -> is_pad c1 = false -> bad c1 = false ->
  is_pad c2 = false -> bad c2 = false -> is_pad c3 = false -> bad c3 = false ->
  decode olen (c0 :: c1 :: c2 :: c3 :: rest) =
  (dst0 (decodeMap c0) (decodeMap c1) :: dst1 (decodeMap c1) (decodeMap c2)
     :: dst2 (decodeMap c2) (decodeMap c3) :: (decode olen rest).1,
   (decode olen rest).2).
Proof.
  intros P0 B0 P1 B1 P2 B2 P3 B3. cbn [decode].
  rewrite P0, B0, P1, B1, P2, B2, P3, B3. cbn [orb].
  destruct (decode olen rest). reflexivity.
Qed.

Lemma decode_Encode_bounded n : forall src olen,
  (length src <= n)%nat -> decode olen (Encode src) = (src, None).
Proof.
  induction n as [n IH] using lt_wf_ind. intros src olen Hlen.
  destruct src as [| s0 [| s1 [| s2 rest]]].
  - reflexivity.
  - cbn [Encode]. fold (b0 s0) (b1_last s0).
    destruct (encode_ok (b0 s0) (b0_range s0)) as (P0 & B0 & D0).
    destruct (encode_ok (b1_last s0) (b1_last_range s0)) as (P1 & B1 & D1).
    cbn [decode]. rewrite P0, B0, P1, B1, D0, D1. cbn.
    rewrite dst0_last. reflexivity.
  - cbn [Encode]. fold (b0 s0) (b1 s0 s1) (b2_last s1).
    destruct (encode_ok (b0 s0) (b0_range s0)) as (P0 & B0 & D0).
    destruct (encode_ok (b1 s0 s1) (b1_range s0 s1)) as (P1 & B1 & D1).
    destruct (encode_ok (b2_last s1) (b2_last_range s1)) as (P2 & B2 & D2).
    cbn [decode]. rewrite P0, B0, P1, B1, P2, B2, D0, D1, D2. cbn.
    rewrite dst0_b, dst1_last. reflexivity.
  - cbn [Encode]. fold (b0 s0) (b1 s0 s1) (b2 s1 s2) (b3 s2).
    destruct (encode_ok (b0 s0) (b0_range s0)) as (P0 & B0 & D0).
    destruct (encode_ok (b1 s0 s1) (b1_range s0 s1)) as (P1 & B1 & D1).
    destruct (encode_ok (b2 s1 s2) (b2_range s1 s2)) as (P2 & B2 & D2).
    destruct (encode_ok (b3 s2) (b3_range s2)) as (P3 & B3 & D3).
    rewrite decode_quantum by assumption.
    rewrite D0, D1, D2, D3, dst0_b, dst1_b, dst2_b.
    cbn [length] in Hlen.
    rewrite (IH (length rest)) by lia. reflexivity.
Qed.

Lemma decode_Encode src olen : decode olen (Encode src) = (src, None).
Proof. apply (decode_Encode_bounded (length src)). lia. Qed.

(** [Encode] writes no newline, so [DecodeString] drops nothing. *)
Lemma encode_not_newline b :
  0 <= b < 64 -> encode b <> "013"%char /\ encode b <> "010"%char.
Proof.
  intros Hb.
  assert (Hall : forallb (fun n => negb (Ascii.eqb (encode (Z.of_nat n)) "013")
                                   && negb (Ascii.eqb (encode (Z.of_nat n)) "010"))
                   (seq 0 64) = true) by (vm_compute; reflexivity).
  rewrite forallb_forall in Hall.
  specialize (Hall (Z.to_nat b)). rewrite Z2Nat.id in Hall by lia.
  assert (Hin : In (Z.to_nat b) (seq 0 64)) by (apply in_seq; lia).
  apply Hall in Hin.
  rewrite andb_true_iff, !negb_true_iff, !Ascii.eqb_neq in Hin. exact Hin.
Qed.

Lemma removeNewlines_cons c l :
  c <> "013"%char /\ c <> "010"%char -> removeNewlines (c :: l) = c :: removeNewlines l.
Proof. intros Hc. unfold removeNewlines. rewrite filter_cons_True; [reflexivity | exact Hc]. Qed.

Lemma removeNewlines_Encode_bounded n : forall src,
  (length src <= n)%nat -> removeNewlines (Encode src) = Encode src.
Proof.
  assert (Hpad : "="%char <> "013"%char /\ "="%char <> "010"%char) by (split; discriminate).
  induction n as [n IH] using lt_wf_ind. intros src Hlen.
  destruct src as [| s0 [| s1 [| s2 rest]]]; cbn [Encode].
  - reflexivity.
  - fold (b0 s0) (b1_last s0).
    rewrite !removeNewlines_cons;
      auto using encode_not_newline, b0_range, b1_last_range.
  - fold (b0 s0) (b1 s0 s1) (b2_last s1).
    rewrite !removeNewlines_cons;
      auto using encode_not_newline, b0_range, b1_range, b2_last_range.
  - fold (b0 s0) (b1 s0 s1) (b2 s1 s2) (b3 s2).
    rewrite !removeNewlines_cons;
      auto using encode_not_newline, b0_range, b1_range, b2_range, b3_range.
    cbn [length] in Hlen. rewrite (IH (length rest)) by lia. reflexivity.
Qed.

(** [DecodeString] reads back what [EncodeToString] wrote. *)
Lemma DecodeString_EncodeToString src :
  DecodeString (EncodeToString src) = (src, None).
Proof.
  unfold DecodeString, EncodeToString.
  rewrite list_ascii_of_string_of_list_ascii.
  rewrite (removeNewlines_Encode_bounded (length src)) by lia.
  apply decode_Encode.
Qed.

End base64_facts.

(** * The integral floats read back what they print *)

Module float_facts.

Import strconv strconv_spec Go.











Lemma digit_stops c r : ~ digit c -> stops (String c r).
Proof. intros Hc. exact Hc. Qed.


Lemma string_of_list_app l1 l2 :
  string_of_list_ascii (l1 ++ l2) = string_of_list_ascii l1 +:+ string_of_list_ascii l2.
Proof.
  induction l1 as [| c l1 IH]; [reflexivity |].
  cbn [app string_of_list_ascii].
  change (String c ?a +:+ ?b) with (String c (a +:+ b)). rewrite IH. reflexivity.
Qed.





End float_facts.

(** * The package *)

Section package_facts.

Context `{JSON}.

(** ** The monad *)

Lemma bind_Val {A B} (m : M A) (k : A -> M B) w a w' :
  m w = (Val a, w') -> (m ≫= k) w = k a w'.
Proof. intros Hm. unfold mbind, M_bind, bind. rewrite Hm. reflexivity. Qed.

Lemma bind_Return {A B} (m : M A) (k : A -> M B) w e w' :
  m w = (Return e, w') -> (m ≫= k) w = (Return e, w').
Proof. intros Hm. unfold mbind, M_bind, bind. rewrite Hm. reflexivity. Qed.

Lemma bind_Panic {A B} (m : M A) (k : A -> M B) w msg w' :
  m w = (Panic msg, w') -> (m ≫= k) w = (Panic msg, w').
Proof. intros Hm. unfold mbind, M_bind, bind. rewrite Hm. reflexivity. Qed.

Lemma World_eta w : {| heap := heap w; Args := Args w; trace := trace w |} = w.
Proof. destruct w. reflexivity. Qed.

(** ** Literal mode *)

Lemma scan_literal p a b toks : forall w,
  scan p {| stopParsing := true; doSave_ := a; doShow := b |} toks w
  = (Val {| stopParsing := true; doSave_ := a; doShow := b |},
     {| heap := heap w; Args := Args w ++ toks; trace := trace w |}).
Proof.
  induction toks as [| tok rest IH]; intros w.
  - cbn. rewrite app_nil_r, World_eta. reflexivity.
  - cbn [scan].
    erewrite bind_Val by (unfold scan_token; cbn; reflexivity).
    cbn iota beta. rewrite IH. cbn. rewrite <- app_assoc. reflexivity.
Qed.

(** C8. Once a bare [--] is scanned, every token that follows is
    appended verbatim to [Args]: whatever the registered options and
    commands are and whether or not the token starts with a dash, the
    variables of the options and the trace stay as they were, and the
    literal flag stays set to the end of the scan. *)
Theorem literal_mode_rest_positional p a b toks w :
  scan p {| stopParsing := false; doSave_ := a; doShow := b |} ("--" :: toks) w
  = (Val {| stopParsing := true; doSave_ := a; doShow := b |},
     {| heap := heap w; Args := Args w ++ toks; trace := trace w |}).
Proof.
  cbn [scan].
  erewrite bind_Val by (unfold scan_token; cbn; reflexivity).
  cbn iota beta. apply scan_literal.
Qed.

End package_facts.

Section value_facts.

Context `{JSON}.

(** ** Registration *)

Lemma lookup_option_app_l l l' name o :
  lookup_option l name = Some o -> lookup_option (l ++ l') name = Some o.
Proof.
  unfold lookup_option. induction l as [| x l IH]; [discriminate |].
  cbn. destruct (bool_decide (Name x = name)); [auto | exact IH].
Qed.

(** C9, as the code has it.  [addOption] makes no check of the name: it
    succeeds for a name that is already registered, the new definition
    is appended after the ones present, which all stay, and the lookup
    of [Parse] keeps finding the definition registered first. *)
Theorem addOption_keeps_duplicates name cmd format help variable flags h p v o0 :
  deref h variable = Some v ->
  lookup_option (optionList p) name = Some o0 ->
  exists p' o,
    addOption name cmd format help variable flags h p = Some p'
    /\ optionList p' = optionList p ++ [o]
    /\ Name o = name /\ Default o = String' v
    /\ lookup_option (optionList p') name = Some o0.
Proof.
  intros Hv Hreg. unfold addOption. rewrite Hv. cbn.
  eexists _, _. split; [reflexivity |]. cbn.
  split; [reflexivity |]. split; [reflexivity |]. split; [reflexivity |].
  apply lookup_option_app_l, Hreg.
Qed.

(** ** Set and String on one value *)






End value_facts.

Section dispatch_facts.

Context `{JSON}.

(** ** Command resolution *)

Lemma second_in_range (args : list string) (t : string) :
  Some t = args !! 1%nat -> bool_decide (1 < length args)%nat = true.
Proof.
  intros Ht. apply bool_decide_eq_true. symmetry in Ht.
  apply lookup_lt_Some in Ht. exact Ht.
Qed.

Lemma resolve_from args l : forall command,
  resolve args l command =
  match find (named_by args) l with
  | Some c => Some c
  | None => from_option Some command (last (filter (fun c => unnamed c = true) l))
  end.
Proof.
  induction l as [| c l IH]; intros command; [reflexivity |].
  cbn [resolve find]. unfold named_by at 1.
  change (bool_decide (Command c = EmptyString)) with (unnamed c).
  destruct (unnamed c) eqn:Hempty.
  - pose proof Hempty as Hc. apply bool_decide_eq_true in Hc.
    rewrite orb_true_r.
    rewrite (bool_decide_eq_false_2 (Command c ≠ EmptyString)) by tauto.
    rewrite andb_false_r, IH.
    destruct (find (named_by args) l); [reflexivity |].
    rewrite filter_cons_True by exact Hempty.
    rewrite last_cons.
    destruct (last (filter (fun c0 => unnamed c0 = true) l)); reflexivity.
  - pose proof Hempty as Hc. apply bool_decide_eq_false in Hc.
    rewrite orb_false_r.
    rewrite (bool_decide_eq_true_2 (Command c ≠ EmptyString)) by exact Hc.
    rewrite andb_true_r.
    rewrite filter_cons_False by (rewrite Hempty; discriminate).
    destruct (bool_decide (Some (Command c) = args !! 1%nat)) eqn:Hnamed.
    + apply bool_decide_eq_true in Hnamed.
      rewrite (second_in_range _ _ Hnamed). reflexivity.
    + rewrite andb_false_r. apply IH.
Qed.

Lemma resolve_resolved args l : resolve args l None = resolved args l.
Proof.
  rewrite resolve_from. unfold resolved.
  destruct (find (named_by args) l); [reflexivity |].
  destruct (last _); reflexivity.
Qed.

(** ** The required-option check *)

Lemma check_required_run o w :
  check_required o w =
  match deref (heap w) (Value o) with
  | None => (Panic "invalid memory address or nil pointer dereference", w)
  | Some _ =>
      if unset (heap w) o then (Return (Some (MissingRequiredOption (Name o))), w)
      else (Val tt, w)
  end.
Proof.
  unfold check_required, Value_String, load, unset.
  unfold mbind, M_bind, bind, get_world, ret, mret, M_ret, ret, panic, return_.
  destruct (deref (heap w) (Value o)) as [v |]; [| reflexivity].
  destruct (has_flag (Flags o) Required && bool_decide (String' v = Default o)); reflexivity.
Qed.

Lemma check_required_all l w :
  for_each check_required l w =
  match find (fun o => dangling (heap w) o || unset (heap w) o) l with
  | None => (Val tt, w)
  | Some o =>
      if dangling (heap w) o
      then (Panic "invalid memory address or nil pointer dereference", w)
      else (Return (Some (MissingRequiredOption (Name o))), w)
  end.
Proof.
  induction l as [| o l IH]; [reflexivity |].
  cbn [for_each find]. unfold mbind, M_bind, bind. rewrite check_required_run.
  destruct (deref (heap w) (Value o)) as [v |] eqn:Hv.
  - assert (Hd : dangling (heap w) o = false) by (unfold dangling; rewrite Hv; reflexivity).
    rewrite Hd. cbn [orb].
    destruct (unset (heap w) o); [rewrite Hd; reflexivity | exact IH].
  - assert (Hd : dangling (heap w) o = true) by (unfold dangling; rewrite Hv; reflexivity).
    rewrite Hd. cbn [orb]. rewrite Hd. reflexivity.
Qed.

Lemma call_run f e w :
  call f e w =
  match f with
  | Some g => (Val tt, {| heap := g (heap w); Args := Args w; trace := trace w ++ [e] |})
  | None => (Val tt, w)
  end.
Proof. destruct f; reflexivity. Qed.

Lemma dispatch_run p w :
  dispatch p w =
  match resolved (Args w) (commandList p) with
  | Some command =>
      (for_each check_required (optionList p);;
       call (Function command) (EvCommand (Command command))) w
  | None =>
      if bool_decide (length (Args w) < 2)%nat
      then (Return (Some MissingCommand),
            {| heap := heap w; Args := Args w; trace := trace w ++ [EvUsage] |})
      else (Return (Some (UnknownCommand (default EmptyString (Args w !! 1%nat)))), w)
  end.
Proof.
  unfold dispatch. unfold mbind at 1, M_bind at 1, bind at 1, get_world.
  rewrite resolve_resolved.
  destruct (resolved (Args w) (commandList p)); [reflexivity |].
  destruct (bool_decide (length (Args w) < 2)%nat); reflexivity.
Qed.



End dispatch_facts.

Section return_facts.

Context `{JSON}.

(** ** Which errors a part of [Parse] can return *)

Lemma ro_bind {A B} Q (m : M A) (k : A -> M B) :
  returns_only Q m -> (forall a, returns_only Q (k a)) -> returns_only Q (m ≫= k).
Proof.
  intros Hm Hk w e w'. unfold mbind, M_bind, bind.
  destruct (m w) as [[a | e0 | msg] w1] eqn:E; intros Heq.
  - eapply Hk, Heq.
  - injection Heq as <- <-. eapply Hm, E.
  - discriminate.
Qed.

Lemma ro_ret {A} Q (a : A) : returns_only Q (mret a).
Proof. intros w e w'. discriminate. Qed.

Lemma ro_ret' {A} Q (a : A) : returns_only Q (ret a).
Proof. intros w e w'. discriminate. Qed.

Lemma ro_panic {A} Q msg : returns_only Q (panic msg : M A).
Proof. intros w e w'. discriminate. Qed.

Lemma ro_return {A} (Q : option error -> Prop) e : Q e -> returns_only Q (return_ e : M A).
Proof. intros HQ w e' w' [= <- _]. exact HQ. Qed.

Lemma ro_emit Q e : returns_only Q (emit e).
Proof. intros w e' w'. discriminate. Qed.

Lemma ro_set_heap Q h : returns_only Q (set_heap h).
Proof. intros w e' w'. discriminate. Qed.

Lemma ro_set_Args Q a : returns_only Q (set_Args a).
Proof. intros w e' w'. discriminate. Qed.

Lemma ro_get_world Q : returns_only Q get_world.
Proof. intros w e' w'. discriminate. Qed.

Lemma ro_load Q a : returns_only Q (load a).
Proof.
  unfold load. apply ro_bind; [apply ro_get_world |]. intros w.
  destruct (deref (heap w) a); [apply ro_ret' | apply ro_panic].
Qed.

Lemma ro_store Q a v : returns_only Q (store a v).
Proof. unfold store. apply ro_bind; [apply ro_get_world | intros; apply ro_set_heap]. Qed.

Lemma ro_call Q f e : returns_only Q (call f e).
Proof.
  destruct f; cbn; [| apply ro_ret'].
  apply ro_bind; [apply ro_get_world |]. intros.
  apply ro_bind; [apply ro_set_heap | intros; apply ro_emit].
Qed.

Lemma ro_byte0 Q s : returns_only Q (byte0 s).
Proof. destruct s; [apply ro_panic | apply ro_ret']. Qed.

Lemma ro_Value_Reset Q o : returns_only Q (Value_Reset o).
Proof. unfold Value_Reset. apply ro_bind; [apply ro_load | intros; apply ro_store]. Qed.

Lemma ro_Value_Set Q o s : returns_only Q (Value_Set o s).
Proof.
  unfold Value_Set. apply ro_bind; [apply ro_load |]. intros v.
  destruct (Set' v s). apply ro_bind; [apply ro_store | intros; apply ro_ret'].
Qed.

Lemma ro_Value_String Q o : returns_only Q (Value_String o).
Proof. unfold Value_String. apply ro_bind; [apply ro_load | intros; apply ro_ret']. Qed.

Lemma ro_for_each {A} Q (f : A -> M unit) l :
  (forall a, returns_only Q (f a)) -> returns_only Q (for_each f l).
Proof.
  intros Hf. induction l as [| x l IH]; cbn; [apply ro_ret' |].
  apply ro_bind; [apply Hf | intros; exact IH].
Qed.

End return_facts.

Create HintDb ro.

#[export] Hint Resolve ro_ret ro_ret' ro_panic ro_emit ro_set_heap ro_set_Args ro_get_world
  ro_load ro_store ro_call ro_byte0 ro_Value_Reset ro_Value_Set ro_Value_String : ro.

Lemma decode_error_bounded n : forall src olen r e,
  (length src <= n)%nat -> base64.decode olen src = (r, Some e) -> lib_error e.
Proof.
  induction n as [n IH] using lt_wf_ind. intros src olen r e Hlen.
  destruct src as [| c0 [| c1 [| c2 [| c3 src4]]]]; cbn [base64.decode];
    unfold base64.corrupt, base64.trailing;
    repeat match goal with
           | |- context [if ?b then _ else _] => destruct b
           end;
    lazymatch goal with
    | |- (let '(_, _) := base64.decode _ _ in _) = _ -> _ =>
        destruct (base64.decode olen src4) as [r' e'] eqn:E; intros [= _ ->];
        cbn [length] in Hlen; eapply (IH (length src4)); [| | exact E]; lia
    | |- context [match src4 with [] => _ | _ :: _ => _ end] =>
        destruct src4; intros Heq;
        first [discriminate Heq | injection Heq as _ <-; exact I]
    | |- _ =>
        intros Heq; first [discriminate Heq | injection Heq as _ <-; exact I]
    end.
Qed.

Section error_facts.

Context `{JSON}.

Lemma Set'_error v s v' e : Set' v s = (v', Some e) -> lib_error e.
Proof.
  destruct v; cbn [Set'].
  - unfold strconv.ParseBool. repeat case_bool_decide; intros [= _ <-]; exact I.
  - unfold strconv.ParseInt. destruct s as [| c rest]; [intros [= _ <-]; exact I |].
    destruct (strconv.ParseUint _) as [un [[] |]];
      repeat match goal with
             | |- context [if ?b then _ else _] => destruct b
             end; intros [= _ <-]; exact I.
  - destruct (ParseFloat s) as [f' [k |]]; intros [= _ <-]; exact I.
  - discriminate.
  - discriminate.
  - unfold base64.DecodeString.
    destruct (base64.decode _ _) as [r e'] eqn:E. intros [= _ ->].
    eapply decode_error_bounded; [| exact E]. reflexivity.
Qed.

Lemma lib_error_not_missing e : lib_error e -> not_missing (Some e).
Proof. intros He n [= ->]. exact He. Qed.

Lemma not_missing_None : not_missing None.
Proof. intros n. discriminate. Qed.

(** A call of [Set] whose error, if any, is returned by the caller as
    [wrap] makes it. *)
Lemma ro_set_or_return Q o s (wrap : error -> error) (k : M unit) :
  (forall e, lib_error e -> Q (Some (wrap e))) ->
  returns_only Q k ->
  returns_only Q (err ← Value_Set o s;
                  match err with Some e => return_ (Some (wrap e)) | None => k end).
Proof.
  intros HQ Hk w e w'. unfold Value_Set, load.
  unfold mbind, M_bind, bind, get_world, ret, panic, store, set_heap, return_.
  destruct (deref (heap w) (Value o)) as [v |]; [| discriminate].
  destruct (Set' v s) as [v' [e0 |]] eqn:E.
  - intros [= <- _]. apply HQ. eapply Set'_error, E.
  - apply Hk.
Qed.

Lemma ro_set_each Q o t :
  (forall e, lib_error e -> Q (Some e)) -> returns_only Q (set_each o t).
Proof.
  intros HQ. induction t as [| x t IH]; cbn [set_each]; [apply ro_ret' |].
  destruct x; try apply ro_panic.
  apply (ro_set_or_return Q o s (fun e => e)); assumption.
Qed.

Lemma ro_load_option Q optionMap o :
  (forall e, lib_error e -> Q (Some e)) -> returns_only Q (load_option optionMap o).
Proof.
  intros HQ. unfold load_option, doChange.
  destruct (optionMap !! Name o) as [[] |]; auto with ro;
    try (apply (ro_set_or_return Q o _ (fun e => e)); auto with ro).
  apply ro_bind; [auto with ro |]. intros.
  apply ro_bind; [apply ro_set_each, HQ | auto with ro].
Qed.

Lemma load_phase_not_missing p env : returns_only not_missing (load_phase p env).
Proof.
  intros w e w'. unfold load_phase.
  destruct (bool_decide (OptionsFile p ≠ EmptyString)); [| discriminate].
  unfold mbind, M_bind, bind, returned.
  destruct (loadOptions p env w) as [[a | e0 | msg] w1] eqn:E; try discriminate.
  destruct e0 as [e0 |]; [| discriminate].
  intros [= <- _].
  revert E. unfold loadOptions. destruct (file env).
  - discriminate.
  - intros [= <- _]. intros n. discriminate.
  - intros E.
    assert (Hro : returns_only (A := unit) (fun e => e = None \/ not_missing e)
                    (for_each (load_option optionMap) (optionList p);; return_ None)).
    { apply ro_bind.
      - apply ro_for_each. intros o. apply ro_load_option.
        intros e He. right. apply lib_error_not_missing, He.
      - intros. apply ro_return. left. reflexivity. }
    destruct (Hro _ _ _ E) as [Hn | Hn]; [discriminate | exact Hn].
Qed.

End error_facts.

Section required_facts.

Context `{JSON}.

Lemma ro_value_follows Q next : returns_only Q (value_follows next).
Proof.
  destruct next; cbn; [| apply ro_ret'].
  apply ro_bind; [apply ro_byte0 | intros; apply ro_ret'].
Qed.

Lemma ro_lookahead Q opt name next : returns_only Q (lookahead opt name next).
Proof.
  unfold lookahead. apply ro_bind; [apply ro_load |]. intros v.
  apply ro_bind; [apply ro_value_follows |]. intros follows.
  destruct (kind_of v), follows; try apply ro_ret'.
  - destruct (strconv.ParseBool _) as [b [e |]]; apply ro_ret'.
  - destruct v; try apply ro_ret'.
    apply ro_bind; [apply ro_store | intros; apply ro_ret'].
Qed.

Lemma ro_apply_pair opt pair : returns_only not_missing (apply_pair opt pair).
Proof.
  unfold apply_pair. destruct pair as [| name [| value [| x pair]]]; try apply ro_ret'.
  apply ro_bind; [| intros; apply ro_call].
  destruct (bool_decide (value = EmptyString)); [apply ro_Value_Reset |].
  apply ro_set_or_return; [| apply ro_ret'].
  intros e _ n. discriminate.
Qed.

Lemma ro_option_token p tok next : returns_only not_missing (option_token p tok next).
Proof.
  unfold option_token.
  destruct (lookup_option _ _) as [opt |]; [| apply ro_return; intros n; discriminate].
  apply ro_bind.
  - destruct (bool_decide _); [apply ro_lookahead | apply ro_ret'].
  - intros [pair' consumed]. apply ro_bind; [apply ro_apply_pair | intros; apply ro_ret'].
Qed.

Lemma ro_scan_token p fl tok next : returns_only not_missing (scan_token p fl tok next).
Proof.
  unfold scan_token.
  repeat first
    [ apply ro_ret' | apply ro_emit | apply ro_get_world | apply ro_set_Args
    | apply ro_byte0 | apply ro_option_token
    | apply ro_return, not_missing_None
    | apply ro_bind; [| intros ?]
    | match goal with
      | |- returns_only _ (if ?b then _ else _) => destruct b
      end ].
Qed.

Lemma ro_scan_bounded p n : forall toks fl,
  (length toks <= n)%nat -> returns_only not_missing (scan p fl toks).
Proof.
  induction n as [n IH] using lt_wf_ind. intros toks fl Hlen.
  destruct toks as [| tok rest]; cbn [scan]; [apply ro_ret' |].
  cbn [length] in Hlen.
  apply ro_bind; [apply ro_scan_token |]. intros [fl' consumed].
  destruct consumed.
  - destruct rest as [| x rest']; [apply ro_ret' |].
    cbn [length] in Hlen. apply (IH (length rest')); lia.
  - apply (IH (length rest)); lia.
Qed.

Lemma scan_phase_not_missing p env : returns_only not_missing (scan_phase p env).
Proof.
  unfold scan_phase.
  apply ro_bind; [apply load_phase_not_missing |]. intros.
  apply ro_bind; [apply ro_set_Args |]. intros.
  apply (ro_scan_bounded p (length (os_Args env))). lia.
Qed.

Lemma ro_json_loop Q l : forall m, returns_only Q (json_loop m l).
Proof.
  induction l as [| v l IH]; intros m; cbn [json_loop]; [apply ro_ret' |].
  apply ro_bind; [| intros; apply IH].
  unfold json_option. apply ro_bind; [apply ro_Value_String |]. intros text.
  destruct (_ && _); [| apply ro_ret'].
  apply ro_bind; [apply ro_call |]. intros.
  apply ro_bind; [apply ro_load | intros; apply ro_ret'].
Qed.

Lemma ro_jsonOptions Q p : returns_only Q (jsonOptions p).
Proof.
  unfold jsonOptions. apply ro_bind; [apply ro_json_loop |]. intros m.
  destruct (MarshalIndent m) as [js [msg |]]; apply ro_ret'.
Qed.

Lemma ro_saveOptions Q p env name : returns_only Q (saveOptions p env name).
Proof.
  unfold saveOptions. apply ro_bind; [apply ro_jsonOptions |]. intros [js e].
  destruct (write_err env); [apply ro_ret' |].
  apply ro_bind; [apply ro_emit | intros; apply ro_ret'].
Qed.

Lemma jsonOptions_error p w js e w' :
  jsonOptions p w = (Val (js, Some e), w') -> exists msg, e = JSONError msg.
Proof.
  unfold jsonOptions, mbind, M_bind, bind.
  destruct (optionMap_of p w) as [[m | e0 | msg0] w1]; try discriminate.
  destruct (MarshalIndent m) as [js' [msg |]]; intros [= _ <- _]; eauto.
Qed.

Lemma saveOptions_error p env name w e w' :
  saveOptions p env name w = (Val (Some e), w') -> exists msg, e = PathError msg.
Proof.
  unfold saveOptions, mbind, M_bind, bind.
  destruct (jsonOptions p w) as [[[js e0] | e0 | msg0] w1]; try discriminate.
  destruct (write_err env) as [msg |]; [intros [= <- _]; eauto | discriminate].
Qed.

(** What [finish] returns when the required-option check is what
    fails. *)
Lemma finish_missing p env fl w n w' :
  finish p env fl w = (Return (Some (MissingRequiredOption n)), w') <->
  doShow fl = false /\ doSave_ fl = false
  /\ is_Some (resolve (Args w) (commandList p) None)
  /\ (exists o, first_unset p (heap w) = Some o /\ unset (heap w) o = true /\ Name o = n)
  /\ w' = w.
Proof.
  unfold finish. destruct (doShow fl).
  { split; [| intros (Hx & _); discriminate Hx].
    intros Heq. exfalso. revert Heq.
    unfold mbind, M_bind, bind.
    destruct (jsonOptions p w) as [[[js e] | e | msg] w1] eqn:E; try discriminate.
    - destruct e as [e |]; [| discriminate].
      apply jsonOptions_error in E. destruct E as [msg ->]. discriminate.
    - intros _. apply (ro_jsonOptions (fun _ => False)) in E. exact E. }
  destruct (doSave_ fl).
  { split; [| intros (_ & Hx & _); discriminate Hx].
    intros Heq. exfalso. revert Heq.
    unfold mbind, M_bind, bind.
    destruct (saveOptions p env (OptionsFile p) w) as [[e | e | msg] w1] eqn:E;
      try discriminate.
    - destruct e as [e |]; [| discriminate].
      apply saveOptions_error in E. destruct E as [msg ->]. discriminate.
    - intros _. apply (ro_saveOptions (fun _ => False)) in E. exact E. }
  rewrite dispatch_run, <- resolve_resolved.
  destruct (resolve (Args w) (commandList p) None) as [command |].
  2:{ split.
      - destruct (bool_decide _); discriminate.
      - intros (_ & _ & [c Hc] & _). discriminate Hc. }
  unfold mbind, M_bind, bind. rewrite check_required_all.
  fold (first_unset p (heap w)).
  destruct (first_unset p (heap w)) as [o |] eqn:Hfirst.
  - destruct (dangling (heap w) o) eqn:Hd.
    + split; [discriminate |].
      intros (_ & _ & _ & (o' & [= <-] & Hu & _) & _).
      unfold dangling in Hd. unfold unset in Hu.
      destruct (deref (heap w) (Value o)); discriminate.
    + split.
      * intros [= <- <-]. repeat split; eauto.
        exists o. repeat split.
        apply find_some in Hfirst. destruct Hfirst as [_ Hor].
        rewrite Hd in Hor. exact Hor.
      * intros (_ & _ & _ & (o' & [= <-] & _ & <-) & ->). reflexivity.
  - rewrite call_run. split.
    + destruct (Function command); discriminate.
    + intros (_ & _ & _ & (o' & Ho' & _) & _). discriminate Ho'.
Qed.

(** C6, as the code has it.  [Parse] returns the "Missing required
    option" error for a name exactly when the scan ran to its end
    (no help or version request, no error), neither the show nor the
    save of the options was asked for, a command resolved, and the
    name is that of the first option in registration order that
    carries the Required flag and whose text is its captured default.
    The check then runs on the state that the scan left, and [Parse]
    returns before the handler of the command is called. *)
Theorem missing_required_option_iff p env w n w' :
  Parse p env w = (Returns (Some (MissingRequiredOption n)), w') <->
  exists fl o,
    scan_phase p env w = (Val fl, w')
    /\ doShow fl = false /\ doSave_ fl = false
    /\ is_Some (resolve (Args w') (commandList p) None)
    /\ first_unset p (heap w') = Some o
    /\ has_flag (Flags o) Required = true
    /\ String' <$> deref (heap w') (Value o) = Some (Default o)
    /\ Name o = n.
Proof.
  assert (Hunset : forall h o,
             unset h o = true <->
             has_flag (Flags o) Required = true
             /\ String' <$> deref h (Value o) = Some (Default o)).
  { intros h o. unfold unset. destruct (deref h (Value o)) as [v |]; cbn.
    - rewrite andb_true_iff, bool_decide_eq_true. split.
      + intros [? ->]. auto.
      + intros [? [= ->]]. auto.
    - split; [discriminate | intros [_ ?]; discriminate]. }
  unfold Parse, Parse_body. unfold mbind at 1, M_bind at 1, bind at 1.
  destruct (scan_phase p env w) as [[fl | e | msg] w1] eqn:Hscan.
  - unfold mbind, M_bind, bind.
    destruct (finish p env fl w1) as [[[] | e | msg] w2] eqn:Hfin.
    + cbn. split; [discriminate |].
      intros (fl' & o & [= <- <-] & Hshow & Hsave & Hres & Hfirst & Hflag & Htext & Hname).
      assert (Hm : finish p env fl w1 = (Return (Some (MissingRequiredOption n)), w1)).
      { apply finish_missing. repeat split; try assumption.
        exists o. repeat split; try assumption. apply Hunset. auto. }
      congruence.
    + split.
      * intros [= -> <-]. apply finish_missing in Hfin.
        destruct Hfin as (Hshow & Hsave & Hres & (o & Hfirst & Hu & Hname) & ->).
        apply Hunset in Hu. destruct Hu as [Hflag Htext].
        exists fl, o. repeat split; assumption.
      * intros (fl' & o & [= <- <-] & Hshow & Hsave & Hres & Hfirst & Hflag & Htext & Hname).
        assert (Hm : finish p env fl w1 = (Return (Some (MissingRequiredOption n)), w1)).
        { apply finish_missing. repeat split; try assumption.
          exists o. repeat split; try assumption. apply Hunset. auto. }
        rewrite Hm in Hfin. injection Hfin as <- <-. reflexivity.
    + split; [discriminate |].
      intros (fl' & o & [= <- <-] & Hshow & Hsave & Hres & Hfirst & Hflag & Htext & Hname).
      assert (Hm : finish p env fl w1 = (Return (Some (MissingRequiredOption n)), w1)).
      { apply finish_missing. repeat split; try assumption.
        exists o. repeat split; try assumption. apply Hunset. auto. }
      congruence.
  - split.
    + intros [= -> <-]. exfalso.
      eapply (scan_phase_not_missing p env); [exact Hscan | reflexivity].
    + intros (fl' & o & Hx & _). discriminate Hx.
  - split; [discriminate |]. intros (fl' & o & Hx & _). discriminate Hx.
Qed.

End required_facts.

Section load_facts.

Context `{JSON}.

(** ** Writing through the pointer of an option *)

Lemma deref_insert (h : Heap) a v v' :
  deref h a = Some v -> deref (<[a := v']> h) a = Some v'.
Proof.
  unfold deref. intros Hv. apply list_lookup_insert_eq. eapply lookup_lt_Some, Hv.
Qed.

Lemma load_run a w v : deref (heap w) a = Some v -> load a w = (Val v, w).
Proof.
  intros Hv. unfold load, mbind, M_bind, bind, get_world. rewrite Hv. reflexivity.
Qed.

Lemma Value_Reset_run o w v :
  deref (heap w) (Value o) = Some v ->
  Value_Reset o w = (Val tt, with_heap w (<[Value o := Reset v]> (heap w))).
Proof.
  intros Hv. unfold Value_Reset. erewrite bind_Val by (apply load_run, Hv). reflexivity.
Qed.

Lemma Value_Set_run o s w v :
  deref (heap w) (Value o) = Some v ->
  Value_Set o s w
  = (Val (Set' v s).2, with_heap w (<[Value o := (Set' v s).1]> (heap w))).
Proof.
  intros Hv. unfold Value_Set. erewrite bind_Val by (apply load_run, Hv).
  destruct (Set' v s). reflexivity.
Qed.

Lemma doChange_run o w :
  doChange o w =
  match onChange o with
  | Some f => (Val tt, {| heap := f (heap w); Args := Args w;
                          trace := trace w ++ [EvChange (Name o)] |})
  | None => (Val tt, w)
  end.
Proof. unfold doChange. apply call_run. Qed.

(** The loop over the elements of an array, whatever they are: the
    strings at the front are given to [Set] in turn; the first [Set]
    that fails ends the load with its error, and the first element
    that is not a string makes the type assertion panic. *)
Lemma set_each_general o t : forall w v v' err,
  deref (heap w) (Value o) = Some v ->
  set_all v (leading_strings t) = (v', err) ->
  set_each o t w =
  match err, first_other t with
  | Some e, _ => (Return (Some e), with_heap w (<[Value o := v']> (heap w)))
  | None, Some x => (Panic (not_string x), with_heap w (<[Value o := v']> (heap w)))
  | None, None => (Val tt, with_heap w (<[Value o := v']> (heap w)))
  end.
Proof.
  assert (Hid : forall w v, deref (heap w) (Value o) = Some v ->
                            with_heap w (<[Value o := v]> (heap w)) = w).
  { intros w v Hv. unfold with_heap. rewrite list_insert_id by exact Hv. apply World_eta. }
  induction t as [| x t IH]; intros w v v' err Hv Hall.
  - cbn [leading_strings set_all] in Hall. injection Hall as <- <-.
    cbn [first_other set_each]. rewrite (Hid w v Hv). reflexivity.
  - destruct x as [| b | f | s | l | m];
      try (cbn [leading_strings set_all] in Hall; injection Hall as <- <-;
           cbn [first_other set_each]; rewrite (Hid w v Hv); reflexivity).
    cbn [leading_strings set_all] in Hall. cbn [first_other set_each].
    erewrite bind_Val by (apply Value_Set_run, Hv).
    destruct (Set' v s) as [v1 [e |]]; cbn [fst snd].
    + injection Hall as <- <-. reflexivity.
    + erewrite IH; [| apply (deref_insert _ _ v), Hv | exact Hall].
      unfold with_heap. cbn [heap Args trace]. rewrite list_insert_insert_eq. reflexivity.
Qed.

Lemma set_all_list l ss :
  set_all (stringListOption l) ss
  = (stringListOption (match ss with [] => l | _ => Some (elems l ++ ss) end), None).
Proof.
  revert l. induction ss as [| s ss IH]; intros l; [reflexivity |].
  cbn [set_all Set']. rewrite IH. unfold append, elems. cbn [default].
  destruct ss as [| s' ss]; [reflexivity |]. unfold id.
  rewrite <- app_assoc. reflexivity.
Qed.

(** A key that names no option does not matter. *)
Lemma load_option_other_key (optionMap : gmap string json) k x o :
  Name o <> k -> load_option (<[k := x]> optionMap) o = load_option optionMap o.
Proof.
  intros Hne. unfold load_option. rewrite lookup_insert_ne by congruence. reflexivity.
Qed.

Lemma for_each_ext {A} (f g : A -> M unit) l :
  Forall (fun a => f a = g a) l -> for_each f l = for_each g l.
Proof.
  induction 1 as [| a l Ha _ IH]; [reflexivity |]. cbn. rewrite Ha, IH. reflexivity.
Qed.

(** C5, as the code has it.  Loading the options file.  A file that
    cannot be opened makes [loadOptions] return nil with nothing
    changed, and one that does not decode makes it return the error of
    the decoder.  For a decoded document the options are visited in
    registration order, each by [load_option], and the first return or
    panic ends the load; a key that names no registered option changes
    nothing.  For an option whose name is a key of the document: a
    JSON null resets its variable and does not call on-change; an
    object leaves everything as it was; an array resets the variable
    and gives its elements to [Set] in turn, so that a string list
    ends as the strings of the array, and then calls on-change once,
    but the first [Set] that fails ends the load with its error and
    the first element that is not a string makes the type assertion
    panic, both without the on-change call; a boolean, number or string
    is printed with [%v] and given to [Set], after which on-change is
    called once, or the load ends with the error of [Set], the variable
    already overwritten and on-change not called. *)
Theorem loadOptions_coercion (p : Package) (env : Env) (o : CmdOption)
    (optionMap : gmap string json) w v :
  deref (heap w) (Value o) = Some v ->
  (file env = NoFile -> loadOptions p env w = (Return None, w))
  /\ (forall msg, file env = Undecodable msg ->
      loadOptions p env w = (Return (Some (JSONError msg)), w))
  /\ (file env = Decoded optionMap ->
      loadOptions p env w
      = match for_each (load_option optionMap) (optionList p) w with
        | (Val _, w1) => (Return None, w1)
        | r => r
        end)
  /\ (forall w0, for_each (load_option optionMap) [] w0 = (Val tt, w0))
  /\ (forall o' l w0,
      for_each (load_option optionMap) (o' :: l) w0
      = match load_option optionMap o' w0 with
        | (Val _, w1) => for_each (load_option optionMap) l w1
        | r => r
        end)
  /\ (forall k x,
      Forall (fun o' => Name o' <> k) (optionList p) ->
      for_each (load_option (<[k := x]> optionMap)) (optionList p)
      = for_each (load_option optionMap) (optionList p))
  /\ (optionMap !! Name o = None -> load_option optionMap o w = (Val tt, w))
  /\ (optionMap !! Name o = Some JNull ->
      load_option optionMap o w
      = (Val tt, with_heap w (<[Value o := Reset v]> (heap w))))
  /\ (forall m,
      optionMap !! Name o = Some (JObject m) -> load_option optionMap o w = (Val tt, w))
  /\ (forall t v' err,
      optionMap !! Name o = Some (JArray t) ->
      set_all (Reset v) (leading_strings t) = (v', err) ->
      load_option optionMap o w
      = match err, first_other t with
        | Some e, _ => (Return (Some e), with_heap w (<[Value o := v']> (heap w)))
        | None, Some x => (Panic (not_string x), with_heap w (<[Value o := v']> (heap w)))
        | None, None => doChange o (with_heap w (<[Value o := v']> (heap w)))
        end
      /\ (kind_of v = KStringList ->
          err = None
          /\ v' = stringListOption (match leading_strings t with
                                    | [] => None
                                    | ss => Some ss
                                    end)))
  /\ (forall t,
      optionMap !! Name o = Some t ->
      is_scalar t = true ->
      load_option optionMap o w
      = match (Set' v (Sprintf_v t)).2 with
        | None =>
            doChange o (with_heap w (<[Value o := (Set' v (Sprintf_v t)).1]> (heap w)))
        | Some e =>
            (Return (Some e), with_heap w (<[Value o := (Set' v (Sprintf_v t)).1]> (heap w)))
        end)
  /\ (forall w1,
      doChange o w1
      = match onChange o with
        | Some f => (Val tt, {| heap := f (heap w1); Args := Args w1;
                                trace := trace w1 ++ [EvChange (Name o)] |})
        | None => (Val tt, w1)
        end).
Proof.
  intros Hv.
  split; [intros Hfile; unfold loadOptions; rewrite Hfile; reflexivity |].
  split; [intros msg Hfile; unfold loadOptions; rewrite Hfile; reflexivity |].
  split.
  { intros Hfile. unfold loadOptions. rewrite Hfile.
    unfold mbind, M_bind, bind.
    destruct (for_each _ _ w) as [[[] | e | msg] w1]; reflexivity. }
  split; [reflexivity |].
  split.
  { intros o' l w0. cbn [for_each]. unfold mbind, M_bind, bind.
    destruct (load_option optionMap o' w0) as [[[] | e | msg] w1]; reflexivity. }
  split.
  { intros k x Hnames. apply for_each_ext.
    eapply Forall_impl; [exact Hnames |]. intros o' Hne.
    apply load_option_other_key, Hne. }
  split; [intros Hk; unfold load_option; rewrite Hk; reflexivity |].
  split; [intros Hk; unfold load_option; rewrite Hk; apply Value_Reset_run, Hv |].
  split; [intros m Hk; unfold load_option; rewrite Hk; reflexivity |].
  split.
  { intros t v' err Hk Hall. split.
    - unfold load_option. rewrite Hk.
      erewrite bind_Val by (apply Value_Reset_run, Hv).
      pose proof (set_each_general o t _ _ v' err
                    (deref_insert _ _ v (Reset v) Hv : deref (heap (with_heap w _)) _ = _)
                    Hall) as Hset.
      unfold with_heap in Hset. cbn [heap Args trace] in Hset.
      rewrite list_insert_insert_eq in Hset. unfold with_heap.
      destruct err as [e |]; [| destruct (first_other t) as [x |]].
      + apply bind_Return. exact Hset.
      + apply bind_Panic. exact Hset.
      + erewrite bind_Val by exact Hset. reflexivity.
    - intros Hkind. destruct v; try discriminate Hkind.
      cbn [Reset] in Hall. rewrite set_all_list in Hall. injection Hall as <- <-.
      split; [reflexivity |]. destruct (leading_strings t); reflexivity. }
  split.
  { intros t Hk Hscalar. unfold load_option. rewrite Hk.
    destruct t; try discriminate Hscalar;
      (erewrite bind_Val by (apply Value_Set_run, Hv);
       destruct (Set' v _) as [v1 [e |]]; reflexivity). }
  apply doChange_run.
Qed.

End load_facts.

Section scan_facts.

Context `{JSON}.

(** ** One option token of the scan *)

Lemma scan_cons p fl tok rest w :
  scan p fl (tok :: rest) w =
  match scan_token p fl tok (head rest) w with
  | (Val (fl', consumed), w1) =>
      if consumed : bool then
        match rest with
        | [] => (Val fl', w1)
        | _ :: rest' => scan p fl' rest' w1
        end
      else scan p fl' rest w1
  | (Return e, w1) => (Return e, w1)
  | (Panic msg, w1) => (Panic msg, w1)
  end.
Proof.
  cbn [scan]. unfold mbind, M_bind, bind.
  destruct (scan_token p fl tok (head rest) w) as [[[fl' []] | e | msg] w1];
    try reflexivity.
  destruct rest; reflexivity.
Qed.

Lemma scan_token_option p fl body next w :
  stopParsing fl = false ->
  sentinel p (String "-" body) = false ->
  scan_token p fl (String "-" body) next w
  = (consumed ← option_token p (String "-" body) next; ret (fl, consumed)) w.
Proof.
  intros Hstop Hsent. unfold sentinel in Hsent.
  rewrite !orb_false_iff in Hsent.
  destruct Hsent as [[[[H1 H2] H3] H4] H5].
  unfold scan_token. rewrite Hstop, H1, H2, H3, H4, H5.
  reflexivity.
Qed.

(** The value that follows a token, when it may be taken: the next
    token, if it is there and does not start with a dash. *)
Lemma value_follows_run next w :
  (forall n, next = Some n -> n <> EmptyString) ->
  value_follows next w
  = (Val (match next with Some n => negb (starts_with_dash n) | None => false end), w).
Proof.
  intros Hne. destruct next as [n |]; [| reflexivity].
  specialize (Hne n eq_refl). destruct n as [| c n]; [contradiction |]. reflexivity.
Qed.

Lemma apply_pair_Set opt name value w v v' :
  deref (heap w) (Value opt) = Some v ->
  value <> EmptyString ->
  Set' v value = (v', None) ->
  apply_pair opt [name; value] w
  = doChange opt (with_heap w (<[Value opt := v']> (heap w))).
Proof.
  intros Hv Hne HSet. unfold apply_pair.
  rewrite bool_decide_eq_false_2 by exact Hne.
  unfold mbind at 1, M_bind at 1, bind at 1.
  erewrite bind_Val by (apply Value_Set_run, Hv).
  rewrite HSet. reflexivity.
Qed.

Lemma lookahead_bool o name next w b0 :
  deref (heap w) (Value o) = Some (boolOption b0) ->
  (forall n, next = Some n -> n <> EmptyString) ->
  lookahead o name next w = (Val ([name; (bool_value next).1], (bool_value next).2), w).
Proof.
  intros Hv Hne. unfold lookahead.
  erewrite bind_Val by (apply load_run, Hv).
  erewrite bind_Val by (apply value_follows_run, Hne).
  cbn [kind_of]. unfold bool_value.
  destruct next as [n |]; [| reflexivity]. cbn [default from_option id].
  destruct (starts_with_dash n); [reflexivity |]. cbn [negb].
  destruct (strconv.ParseBool n) as [b [e |]]; reflexivity.
Qed.

Lemma bool_value_parses next :
  (forall n, next = Some n -> n <> EmptyString) ->
  (strconv.ParseBool (bool_value next).1).2 = None /\ (bool_value next).1 <> EmptyString.
Proof.
  intros Hne. unfold bool_value.
  destruct next as [n |]; [| split; [reflexivity | discriminate]].
  destruct (starts_with_dash n); [split; [reflexivity | discriminate] |].
  destruct (strconv.ParseBool n) as [b [e |]] eqn:E;
    [split; [reflexivity | discriminate] |].
  cbn [fst]. rewrite E. split; [reflexivity | apply Hne; reflexivity].
Qed.

Lemma doChange_Val o w : exists w1, doChange o w = (Val tt, w1).
Proof. rewrite doChange_run. destruct (onChange o); eauto. Qed.

(** The run of [scan] over an option token, from what [option_token]
    does with it. *)
Lemma scan_option_token p fl body rest w consumed w1 :
  stopParsing fl = false ->
  sentinel p (String "-" body) = false ->
  option_token p (String "-" body) (head rest) w = (Val consumed, w1) ->
  (consumed = true -> rest <> []) ->
  scan p fl (String "-" body :: rest) w = scan p fl (after consumed rest) w1.
Proof.
  intros Hstop Hsent Htok Hrest.
  rewrite scan_cons, scan_token_option by assumption.
  erewrite bind_Val by exact Htok. cbn [ret].
  destruct consumed; [| reflexivity].
  destruct rest; [destruct (Hrest eq_refl eq_refl) | reflexivity].
Qed.

(** The boolean lookahead.  A token [-name] without [=] that names a
    boolean option, read while literal mode is off and followed by
    tokens of which the first, if any, is not empty: a next token that
    does not start with a dash and parses as a boolean is taken as the
    value and skipped; otherwise the value is ["true"] and the scan
    goes on with the next token.  On-change is called after the value
    is set. *)
Lemma bool_option_lookahead p fl name rest w o b0 :
  stopParsing fl = false ->
  sentinel p (String "-" name) = false ->
  Split name "="%char = [name] ->
  lookup_option (optionList p) name = Some o ->
  deref (heap w) (Value o) = Some (boolOption b0) ->
  (forall n, head rest = Some n -> n <> EmptyString) ->
  let value := (bool_value (head rest)).1 in
  let consumed := (bool_value (head rest)).2 in
  (strconv.ParseBool value).2 = None
  /\ scan p fl (String "-" name :: rest) w
     = (doChange o;; scan p fl (after consumed rest))
         (with_heap w (<[Value o := boolOption (strconv.ParseBool value).1]> (heap w))).
Proof.
  intros Hstop Hsent Hsplit Hopt Hv Hne value consumed.
  destruct (bool_value_parses (head rest) Hne) as [Hok Hnonempty].
  fold value in Hok, Hnonempty. split; [exact Hok |].
  assert (HSet : Set' (boolOption b0) value
                 = (boolOption (strconv.ParseBool value).1, None)).
  { cbn [Set']. destruct (strconv.ParseBool value) as [b e]. cbn in Hok. subst e. reflexivity. }
  set (w0 := with_heap w _).
  destruct (doChange_Val o w0) as [w1 Hd].
  erewrite (bind_Val (doChange o)) by exact Hd.
  apply scan_option_token; try assumption.
  - unfold option_token. cbn [drop1]. rewrite Hsplit.
    change (default EmptyString (head [name])) with name.
    rewrite Hopt. rewrite bool_decide_eq_true_2 by (cbn; lia).
    erewrite bind_Val by (eapply lookahead_bool; eassumption).
    cbn beta iota. fold value consumed.
    erewrite bind_Val
      by (rewrite (apply_pair_Set _ _ _ _ _ _ Hv Hnonempty HSet); exact Hd).
    reflexivity.
  - subst consumed. unfold bool_value. destruct rest; [discriminate | intros _; discriminate].
Qed.

Lemma apply_pair_Reset opt name w v :
  deref (heap w) (Value opt) = Some v ->
  apply_pair opt [name; EmptyString] w
  = doChange opt (with_heap w (<[Value opt := Reset v]> (heap w))).
Proof.
  intros Hv. unfold apply_pair.
  rewrite bool_decide_eq_true_2 by reflexivity.
  erewrite bind_Val by (apply Value_Reset_run, Hv). reflexivity.
Qed.

(** A value given to an option is followed by its on-change call: after
    a reset (the empty value) and after a [Set] that succeeds, on-change
    runs, once, on the state that holds the new value. *)
Lemma value_applied_calls_onChange opt name value w v :
  deref (heap w) (Value opt) = Some v ->
  (value = EmptyString ->
   apply_pair opt [name; value] w
   = doChange opt (with_heap w (<[Value opt := Reset v]> (heap w))))
  /\ (forall v', value <> EmptyString -> Set' v value = (v', None) ->
      apply_pair opt [name; value] w
      = doChange opt (with_heap w (<[Value opt := v']> (heap w)))).
Proof.
  intros Hv. split.
  - intros ->. apply apply_pair_Reset, Hv.
  - intros v' Hne HSet. eapply apply_pair_Set; eassumption.
Qed.

Lemma lookahead_list_bare o name next w l :
  deref (heap w) (Value o) = Some (stringListOption l) ->
  (forall n, next = Some n -> starts_with_dash n = true) ->
  lookahead o name next w
  = (Val ([name], false),
     with_heap w (<[Value o := stringListOption (FromString l (Default o)).1]> (heap w))).
Proof.
  intros Hv Hdash. unfold lookahead.
  erewrite bind_Val by (apply load_run, Hv).
  assert (Hf : value_follows next w = (Val false, w)).
  { destruct next as [n |]; [| reflexivity].
    specialize (Hdash n eq_refl). destruct n as [| c n]; [discriminate |].
    cbn in Hdash. cbn. unfold mbind, M_bind, bind, ret. cbn. rewrite Hdash. reflexivity. }
  erewrite bind_Val by exact Hf.
  cbn [kind_of]. reflexivity.
Qed.

(** A bare string-list option.  A token [-name] without [=] that names
    a string-list option and is followed by no token or by one that
    starts with a dash: the variable becomes what [FromString] makes of
    it from the captured default text, whose error is dropped; no Reset
    and no on-change call is made, and the scan goes on with the next
    token. *)
Lemma list_option_bare p fl name rest w o l :
  stopParsing fl = false ->
  sentinel p (String "-" name) = false ->
  Split name "="%char = [name] ->
  lookup_option (optionList p) name = Some o ->
  deref (heap w) (Value o) = Some (stringListOption l) ->
  (forall n, head rest = Some n -> starts_with_dash n = true) ->
  scan p fl (String "-" name :: rest) w
  = scan p fl rest
      (with_heap w (<[Value o := stringListOption (FromString l (Default o)).1]> (heap w))).
Proof.
  intros Hstop Hsent Hsplit Hopt Hv Hdash.
  change rest with (after false rest) at 2.
  apply scan_option_token; try assumption; [| discriminate].
  unfold option_token. cbn [drop1]. rewrite Hsplit.
  change (default EmptyString (head [name])) with name.
  rewrite Hopt. rewrite bool_decide_eq_true_2 by (cbn; lia).
  erewrite bind_Val by (eapply lookahead_list_bare; eassumption).
  reflexivity.
Qed.

(** ** The map that jsonOptions builds *)

(** One iteration of the loop of [jsonOptions]: the option is put in
    the map exactly when it has the Preference flag and the text of its
    variable is not its captured default; on-save is called first and
    the value that goes in the map is read after it. *)
Lemma json_option_run (optionMap : gmap string native) v w x :
  deref (heap w) (Value v) = Some x ->
  json_option optionMap v w =
  if has_flag (Flags v) Preference && negb (bool_decide (String' x = Default v))
  then
    (doSave v;;
     x' ← load (Value v);
     ret (<[Name v := Get x']> optionMap)) w
  else (Val optionMap, w).
Proof.
  intros Hx. unfold json_option, Value_String.
  erewrite bind_Val by (erewrite bind_Val by (apply load_run, Hx); reflexivity).
  destruct (_ && _); reflexivity.
Qed.

End scan_facts.

Section json_facts.

Context `{JSON}.

Lemma json_loop_keys l : forall (m0 : gmap string native) w,
  Forall (fun o => onSave o = None /\ is_Some (deref (heap w) (Value o))) l ->
  exists m,
    json_loop m0 l w = (Val m, w)
    /\ forall k, is_Some (m !! k) <->
                 is_Some (m0 !! k) \/ exists o, o ∈ l /\ Name o = k /\ to_save (heap w) o.
Proof.
  induction l as [| v l IH]; intros m0 w Hall.
  - exists m0. split; [reflexivity |]. intros k. split; [auto |].
    intros [Hk | (o & Ho & _)]; [exact Hk |]. inversion Ho.
  - apply Forall_cons in Hall. destruct Hall as [[Hhook [x Hx]] Hall].
    cbn [json_loop].
    destruct (has_flag (Flags v) Preference && negb (bool_decide (String' x = Default v)))
      eqn:Hinc.
    + assert (Hstep : json_option m0 v w = (Val (<[Name v := Get x]> m0), w)).
      { rewrite (json_option_run _ _ _ _ Hx), Hinc.
        unfold doSave. rewrite Hhook. cbn [call].
        erewrite bind_Val by reflexivity.
        erewrite bind_Val by (apply load_run, Hx). reflexivity. }
      destruct (IH (<[Name v := Get x]> m0) w Hall) as (m & Hm & Hkeys).
      exists m. split; [erewrite bind_Val by exact Hstep; exact Hm |].
      intros k. rewrite Hkeys. rewrite lookup_insert_is_Some.
      apply andb_true_iff in Hinc. destruct Hinc as [Hflag Htext].
      apply negb_true_iff, bool_decide_eq_false in Htext.
      split.
      * intros [[Hk | [_ Hk]] | (o & Ho & Hname & Hsave)].
        -- right. exists v. split; [left |]. split; [exact Hk |]. exists x. auto.
        -- left. exact Hk.
        -- right. exists o. split; [right; exact Ho | auto].
      * intros [Hk | (o & Ho & Hname & Hsave)].
        -- destruct (decide (Name v = k)); [left; left; assumption | left; right; auto].
        -- apply elem_of_cons in Ho. destruct Ho as [-> | Ho].
           ++ left. left. exact Hname.
           ++ right. exists o. auto.
    + assert (Hstep : json_option m0 v w = (Val m0, w)).
      { rewrite (json_option_run _ _ _ _ Hx), Hinc. reflexivity. }
      destruct (IH m0 w Hall) as (m & Hm & Hkeys).
      exists m. split; [erewrite bind_Val by exact Hstep; exact Hm |].
      intros k. rewrite Hkeys. split.
      * intros [Hk | (o & Ho & Hname & Hsave)]; [left; exact Hk |].
        right. exists o. split; [right; exact Ho | auto].
      * intros [Hk | (o & Ho & Hname & Hsave)]; [left; exact Hk |].
        apply elem_of_cons in Ho. destruct Ho as [-> | Ho].
        -- exfalso. destruct Hsave as (x' & Hx' & Hflag & Htext).
           rewrite Hx in Hx'. injection Hx' as <-.
           rewrite Hflag in Hinc. cbn in Hinc.
           apply negb_false_iff, bool_decide_eq_true in Hinc. contradiction.
        -- right. exists o. auto.
Qed.

(** The keys of the map of [jsonOptions], for options without on-save
    callbacks: a name is a key exactly when an option of that name has
    the Preference flag and a text that is not its captured default. *)
Lemma optionMap_keys p w :
  Forall (fun o => onSave o = None /\ is_Some (deref (heap w) (Value o))) (optionList p) ->
  exists m,
    optionMap_of p w = (Val m, w)
    /\ forall k, is_Some (m !! k) <->
                 exists o, o ∈ optionList p /\ Name o = k /\ to_save (heap w) o.
Proof.
  intros Hall. destruct (json_loop_keys _ ∅ w Hall) as (m & Hm & Hkeys).
  exists m. split; [exact Hm |]. intros k. rewrite Hkeys. split.
  - intros [Hk | Hk]; [| exact Hk]. rewrite lookup_empty in Hk. destruct Hk; discriminate.
  - auto.
Qed.

End json_facts.

(** * The forms of an option token *)

Lemma Split_free s sep : contains sep s = false -> Split s sep = [s].
Proof.
  induction s as [| c s IH]; [reflexivity |].
  cbn [contains Split]. intros Hc. apply orb_false_iff in Hc. destruct Hc as [Hc Hs].
  rewrite Hc, (IH Hs). reflexivity.
Qed.

Lemma Split_app a b sep :
  contains sep a = false -> Split (a +:+ String sep b) sep = a :: Split b sep.
Proof.
  induction a as [| c a IH].
  - intros _. change (EmptyString +:+ String sep b) with (String sep b).
    cbn [Split]. rewrite bool_decide_eq_true_2 by reflexivity. reflexivity.
  - cbn [contains]. intros Hc. apply orb_false_iff in Hc. destruct Hc as [Hc Ha].
    change (String c a +:+ String sep b) with (String c (a +:+ String sep b)).
    cbn [Split]. rewrite Hc, (IH Ha). reflexivity.
Qed.

Lemma contains_app c a b : contains c (a +:+ b) = contains c a || contains c b.
Proof.
  induction a as [| x a IH]; [reflexivity |].
  change (String x a +:+ b) with (String x (a +:+ b)).
  cbn [contains]. rewrite IH, orb_assoc. reflexivity.
Qed.

Lemma contains_equals_token name value :
  contains "="%char (String "-" (name +:+ String "=" value)) = true.
Proof.
  cbn [contains]. rewrite contains_app. cbn [contains].
  rewrite (bool_decide_eq_true_2 ("="%char = "="%char)) by reflexivity.
  rewrite orb_true_l, !orb_true_r. reflexivity.
Qed.

Section token_facts.

Context `{JSON}.

(** No token that the scan takes for itself has an equals sign. *)
Lemma sentinel_without_equals p tok :
  contains "="%char tok = true -> sentinel p tok = false.
Proof.
  intros Hc. unfold sentinel.
  repeat match goal with
         | |- context [bool_decide (tok = ?s)] =>
             destruct (bool_decide_reflect (tok = s)) as [-> | _]; [discriminate Hc |]
         | |- context [bool_decide (tok = ?a ∨ ?P)] =>
             destruct (bool_decide_reflect (tok = a ∨ P)) as [[-> | [-> | ->]] | _];
             [discriminate Hc | discriminate Hc | discriminate Hc |]
         end.
  cbn. rewrite !andb_false_r. reflexivity.
Qed.

Lemma scan_option_token_Return p fl body rest w e w1 :
  stopParsing fl = false ->
  sentinel p (String "-" body) = false ->
  option_token p (String "-" body) (head rest) w = (Return e, w1) ->
  scan p fl (String "-" body :: rest) w = (Return e, w1).
Proof.
  intros Hstop Hsent Htok.
  rewrite scan_cons, scan_token_option by assumption.
  erewrite bind_Return by exact Htok. reflexivity.
Qed.

(** The [if len(pair) == 2] block, from what it does with the value. *)
Lemma apply_pair_applied opt name value w v :
  deref (heap w) (Value opt) = Some v ->
  apply_pair opt [name; value] w =
  match (applied v value).2 with
  | None => doChange opt (with_heap w (<[Value opt := (applied v value).1]> (heap w)))
  | Some e => (Return (Some (InvalidValue name value e)),
               with_heap w (<[Value opt := (applied v value).1]> (heap w)))
  end.
Proof.
  intros Hv. unfold applied.
  destruct (bool_decide_reflect (value = EmptyString)) as [-> | Hne].
  - cbn [fst snd]. apply apply_pair_Reset, Hv.
  - destruct (Set' v value) as [v' [e |]] eqn:HSet; cbn [fst snd].
    + unfold apply_pair. rewrite bool_decide_eq_false_2 by exact Hne.
      unfold mbind at 1, M_bind at 1, bind at 1.
      erewrite bind_Val by (apply Value_Set_run, Hv).
      rewrite HSet. reflexivity.
    + eapply apply_pair_Set; eassumption.
Qed.

(** The run of [scan] over an option token whose value is settled:
    the value is applied, on-change is called and the scan goes on, or
    the error of [Set] ends the scan with the variable overwritten. *)
Lemma scan_settled p fl body rest w o v name value consumed :
  stopParsing fl = false ->
  sentinel p (String "-" body) = false ->
  deref (heap w) (Value o) = Some v ->
  option_token p (String "-" body) (head rest) w
  = (apply_pair o [name; value];; ret consumed) w ->
  (consumed = true -> rest <> []) ->
  scan p fl (String "-" body :: rest) w =
  match (applied v value).2 with
  | None =>
      (doChange o;; scan p fl (after consumed rest))
        (with_heap w (<[Value o := (applied v value).1]> (heap w)))
  | Some e =>
      (Return (Some (InvalidValue name value e)),
       with_heap w (<[Value o := (applied v value).1]> (heap w)))
  end.
Proof.
  intros Hstop Hsent Hv Htok Hrest.
  pose proof (apply_pair_applied o name value w v Hv) as Hap.
  destruct ((applied v value).2) as [e |].
  - apply scan_option_token_Return; try assumption.
    rewrite Htok. erewrite bind_Return by exact Hap. reflexivity.
  - set (w0 := with_heap w _) in *.
    destruct (doChange_Val o w0) as [w1 Hd].
    erewrite (bind_Val (doChange o)) by exact Hd.
    apply scan_option_token; try assumption.
    rewrite Htok. erewrite bind_Val by (rewrite Hap; exact Hd). reflexivity.
Qed.

Lemma option_token_found p body next name o :
  option_name body = name ->
  lookup_option (optionList p) name = Some o ->
  option_token p (String "-" body) next =
  ('(pair', consumed) ←
     (if bool_decide (length (Split body "="%char) < 2)%nat then lookahead o name next
      else ret (Split body "="%char, false));
   apply_pair o pair';; ret consumed).
Proof.
  intros Hname Hopt. unfold option_token. cbn [drop1].
  fold (option_name body). rewrite Hname, Hopt. reflexivity.
Qed.

(** The form [-name=value].  The text after the equals sign is the
    value and the next token is never taken: the empty text resets the
    variable, any other text is given to [Set]; then on-change is
    called and the scan goes on.  When [Set] fails the scan ends with
    the error that carries the name, the text and the cause, the
    variable holds what the parse function returned, on-change is not
    called and the tokens that follow are not read. *)
Theorem explicit_value p fl name value rest w o v :
  stopParsing fl = false ->
  contains "="%char name = false ->
  contains "="%char value = false ->
  lookup_option (optionList p) name = Some o ->
  deref (heap w) (Value o) = Some v ->
  scan p fl (String "-" (name +:+ String "=" value) :: rest) w =
  match (applied v value).2 with
  | None =>
      (doChange o;; scan p fl rest)
        (with_heap w (<[Value o := (applied v value).1]> (heap w)))
  | Some e =>
      (Return (Some (InvalidValue name value e)),
       with_heap w (<[Value o := (applied v value).1]> (heap w)))
  end.
Proof.
  intros Hstop Hname Hvalue Hopt Hv.
  assert (Hsplit : Split (name +:+ String "=" value) "="%char = [name; value])
    by (rewrite Split_app, Split_free by assumption; reflexivity).
  change rest with (after false rest) at 2.
  apply scan_settled; try assumption; [| | discriminate].
  - apply sentinel_without_equals, contains_equals_token.
  - rewrite (option_token_found p _ _ name o)
      by (unfold option_name; rewrite ?Hsplit; auto).
    rewrite Hsplit. reflexivity.
Qed.

(** A token with more than one equals sign, [-name=a=b], whose name is
    registered is dropped without a trace: [strings.Split] gives three
    parts or more, so neither the lookahead nor the assignment runs;
    the variable is not touched and the scan goes on. *)
Theorem extra_equals_ignored p fl name v1 v2 rest w o :
  stopParsing fl = false ->
  contains "="%char name = false ->
  lookup_option (optionList p) name = Some o ->
  scan p fl (String "-" (name +:+ String "=" (v1 +:+ String "=" v2)) :: rest) w
  = scan p fl rest w.
Proof.
  intros Hstop Hname Hopt.
  set (body := name +:+ String "=" (v1 +:+ String "=" v2)).
  assert (Hsplit : exists a b l, Split body "="%char = name :: a :: b :: l).
  { unfold body. rewrite Split_app by assumption.
    assert (Hv : forall x y, exists a b l, Split (x +:+ String "=" y) "="%char = a :: b :: l).
    { clear. intros x y. induction x as [| c x IH].
      - change (EmptyString +:+ String "=" y) with (String "="%char y). cbn [Split].
        rewrite bool_decide_eq_true_2 by reflexivity.
        destruct y as [| d y]; [eexists _, _, _; reflexivity |].
        cbn [Split]. destruct (bool_decide (d = "="%char)); [eexists _, _, _; reflexivity |].
        destruct (Split y "="%char); eexists _, _, _; reflexivity.
      - change (String c x +:+ String "=" y) with (String c (x +:+ String "=" y)).
        cbn [Split]. destruct IH as (a & b & l & ->).
        destruct (bool_decide (c = "="%char)); eexists _, _, _; reflexivity. }
    destruct (Hv v1 v2) as (a & b & l & ->). eauto. }
  destruct Hsplit as (a & b & l & Hsplit).
  change rest with (after false rest) at 2.
  apply scan_option_token; try assumption; [| | discriminate].
  - apply sentinel_without_equals, contains_equals_token.
  - rewrite (option_token_found p _ _ name o)
      by (unfold option_name; rewrite ?Hsplit; auto).
    rewrite Hsplit. reflexivity.
Qed.

Lemma scan_unknown p fl body rest w :
  stopParsing fl = false ->
  sentinel p (String "-" body) = false ->
  lookup_option (optionList p) (option_name body) = None ->
  scan p fl (String "-" body :: rest) w
  = (Return (Some (UnknownOption (option_name body))), w).
Proof.
  intros Hstop Hsent Hopt.
  apply scan_option_token_Return; try assumption.
  unfold option_token. cbn [drop1]. fold (option_name body). rewrite Hopt. reflexivity.
Qed.

(** An option token whose name is not registered ends the scan with
    the invalid-option error for that name; nothing is changed by that
    token and the tokens that follow are not read, while what earlier
    tokens have set stays set. *)
Theorem unknown_option p fl body rest w :
  stopParsing fl = false ->
  sentinel p (String "-" body) = false ->
  lookup_option (optionList p) (option_name body) = None ->
  scan p fl (String "-" body :: rest) w
  = (Return (Some (UnknownOption (option_name body))), w)
  /\ errors_New (UnknownOption (option_name body))
     = Some ("Invalid option -" +:+ option_name body).
Proof.
  intros Hstop Hsent Hopt. split; [| reflexivity].
  apply scan_unknown; assumption.
Qed.

Lemma lookahead_scalar o name next w v :
  deref (heap w) (Value o) = Some v ->
  kind_of v <> KBool -> kind_of v <> KStringList ->
  (forall n, next = Some n -> n <> EmptyString) ->
  lookahead o name next w
  = (Val ([name; (scalar_value o next).1], (scalar_value o next).2), w).
Proof.
  intros Hv Hb Hl Hne. unfold lookahead.
  erewrite bind_Val by (apply load_run, Hv).
  erewrite bind_Val by (apply value_follows_run, Hne).
  unfold scalar_value.
  destruct (kind_of v); try contradiction;
    (destruct next as [n |]; [| reflexivity]; cbn [default from_option id];
     destruct (starts_with_dash n); reflexivity).
Qed.

Lemma scan_scalar p fl name rest w o v :
  stopParsing fl = false ->
  sentinel p (String "-" name) = false ->
  contains "="%char name = false ->
  lookup_option (optionList p) name = Some o ->
  deref (heap w) (Value o) = Some v ->
  kind_of v <> KBool -> kind_of v <> KStringList ->
  (forall n, head rest = Some n -> n <> EmptyString) ->
  let value := (scalar_value o (head rest)).1 in
  let consumed := (scalar_value o (head rest)).2 in
  scan p fl (String "-" name :: rest) w =
  match (applied v value).2 with
  | None =>
      (doChange o;; scan p fl (after consumed rest))
        (with_heap w (<[Value o := (applied v value).1]> (heap w)))
  | Some e =>
      (Return (Some (InvalidValue name value e)),
       with_heap w (<[Value o := (applied v value).1]> (heap w)))
  end.
Proof.
  intros Hstop Hsent Hname Hopt Hv Hb Hl Hne value consumed.
  pose proof (Split_free name "="%char Hname) as Hsplit.
  apply scan_settled; try assumption.
  - rewrite (option_token_found p _ _ name o)
      by (unfold option_name; rewrite ?Hsplit; auto).
    rewrite Hsplit. rewrite bool_decide_eq_true_2 by (cbn; lia).
    erewrite bind_Val by (eapply lookahead_scalar; eassumption).
    reflexivity.
  - subst consumed. unfold scalar_value.
    destruct rest; [discriminate | intros _; discriminate].
Qed.

(** A bare option before an empty token: the lookahead indexes the
    first byte of the empty token and panics, with nothing changed. *)
Lemma scan_empty_next p fl name rest w o v :
  stopParsing fl = false ->
  sentinel p (String "-" name) = false ->
  contains "="%char name = false ->
  lookup_option (optionList p) name = Some o ->
  deref (heap w) (Value o) = Some v ->
  head rest = Some EmptyString ->
  scan p fl (String "-" name :: rest) w = (Panic "index out of range", w).
Proof.
  intros Hstop Hsent Hname Hopt Hv Hnext.
  pose proof (Split_free name "="%char Hname) as Hsplit.
  rewrite scan_cons, scan_token_option by assumption.
  assert (Hlook : lookahead o name (head rest) w = (Panic "index out of range", w)).
  { unfold lookahead. erewrite bind_Val by (apply load_run, Hv).
    apply bind_Panic. rewrite Hnext. reflexivity. }
  assert (Htok : option_token p (String "-" name) (head rest) w
                 = (Panic "index out of range", w)).
  { rewrite (option_token_found p _ _ name o)
      by (unfold option_name; rewrite ?Hsplit; auto).
    rewrite Hsplit. rewrite bool_decide_eq_true_2 by (cbn; lia).
    apply bind_Panic, Hlook. }
  erewrite bind_Panic by exact Htok. reflexivity.
Qed.

(** The value of an integer, float, string or byte option given
    without an equals sign.  Before an empty token the lookahead
    panics, with nothing changed.  Otherwise a next token that does not
    start with a dash is taken as the value and skipped, and with no
    such token the value is the captured default text; the value is
    then applied: the empty text resets the variable, any other text is
    given to [Set]; on success on-change is called and the scan goes
    on, on failure the scan ends with the invalid-value error and the
    variable holds what [Set] left. *)
Theorem scalar_option_lookahead p fl name rest w o v :
  stopParsing fl = false ->
  sentinel p (String "-" name) = false ->
  contains "="%char name = false ->
  lookup_option (optionList p) name = Some o ->
  deref (heap w) (Value o) = Some v ->
  kind_of v <> KBool -> kind_of v <> KStringList ->
  (head rest = Some EmptyString ->
   scan p fl (String "-" name :: rest) w = (Panic "index out of range", w))
  /\ ((forall n, head rest = Some n -> n <> EmptyString) ->
      let value := (scalar_value o (head rest)).1 in
      let consumed := (scalar_value o (head rest)).2 in
      scan p fl (String "-" name :: rest) w =
      match (applied v value).2 with
      | None =>
          (doChange o;; scan p fl (after consumed rest))
            (with_heap w (<[Value o := (applied v value).1]> (heap w)))
      | Some e =>
          (Return (Some (InvalidValue name value e)),
           with_heap w (<[Value o := (applied v value).1]> (heap w)))
      end).
Proof.
  intros Hstop Hsent Hname Hopt Hv Hb Hl. split.
  - intros Hnext. eapply scan_empty_next; eassumption.
  - intros Hne.
    exact (scan_scalar p fl name rest w o v Hstop Hsent Hname Hopt Hv Hb Hl Hne).
Qed.

Lemma formatBits_onto fuel : forall u c acc,
  strconv.formatBits fuel u (String c acc) <> EmptyString.
Proof.
  induction fuel as [| f IH]; intros u c acc; cbn [strconv.formatBits]; [discriminate |].
  destruct (u <? 10); [discriminate | apply IH].
Qed.

Lemma formatBits_not_empty f u acc :
  strconv.formatBits (S f) u acc <> EmptyString.
Proof.
  cbn [strconv.formatBits]. destruct (u <? 10); [discriminate | apply formatBits_onto].
Qed.

Lemma FormatInt_not_empty i : strconv.FormatInt i <> EmptyString.
Proof.
  unfold strconv.FormatInt. destruct (i <? 0); [discriminate |].
  apply (formatBits_not_empty 19).
Qed.

Lemma EncodeToString_empty l : base64.EncodeToString l = EmptyString -> l = [].
Proof.
  unfold base64.EncodeToString.
  destruct l as [| s0 [| s1 [| s2 rest]]]; [reflexivity | | |]; discriminate.
Qed.

(** The text of a value, applied to a variable of its kind, gives the
    value back: through a reset when the text is empty, through [Set]
    otherwise. *)
Lemma applied_String v v0 :
  kind_of v = kind_of v0 ->
  kind_of v0 = KInt \/ kind_of v0 = KString \/ kind_of v0 = KByte ->
  in_range v0 ->
  applied v (String' v0) = (restored v0, None).
Proof.
  intros Hk Hkind Hr. unfold applied.
  destruct v0, v; try discriminate Hk;
    try (destruct Hkind as [Hx | [Hx | Hx]]; discriminate Hx); cbn [String' restored].
  - rewrite bool_decide_eq_false_2 by apply FormatInt_not_empty.
    cbn [Set']. rewrite strconv_facts.ParseInt_FormatInt by exact Hr. reflexivity.
  - destruct (bool_decide_reflect (s = EmptyString)) as [-> | _]; reflexivity.
  - destruct (bool_decide_reflect (base64.EncodeToString (elems b) = EmptyString))
      as [He | Hne].
    + apply EncodeToString_empty in He. rewrite He. reflexivity.
    + cbn [Set']. rewrite base64_facts.DecodeString_EncodeToString.
      destruct (elems b) as [| x l] eqn:E; [contradiction Hne; reflexivity | reflexivity].
Qed.

(** A bare option restores the registered value.  For an integer,
    string or byte option whose captured default is the text of the
    value [v0] that its variable held at registration, the token
    [-name] with no value after it (no token, or one that starts with a
    dash) puts [v0] back in the variable, whatever it holds, and calls
    on-change (an empty byte slice comes back nil). *)
Theorem bare_option_restores_registered p fl name rest w o v v0 :
  stopParsing fl = false ->
  sentinel p (String "-" name) = false ->
  contains "="%char name = false ->
  lookup_option (optionList p) name = Some o ->
  deref (heap w) (Value o) = Some v ->
  kind_of v = kind_of v0 ->
  kind_of v0 = KInt \/ kind_of v0 = KString \/ kind_of v0 = KByte ->
  in_range v0 ->
  Default o = String' v0 ->
  (forall n, head rest = Some n -> starts_with_dash n = true) ->
  scan p fl (String "-" name :: rest) w
  = (doChange o;; scan p fl rest)
      (with_heap w (<[Value o := restored v0]> (heap w))).
Proof.
  intros Hstop Hsent Hname Hopt Hv Hk Hkind Hr Hdef Hdash.
  assert (Hsv : scalar_value o (head rest) = (String' v0, false)).
  { unfold scalar_value. destruct (head rest) as [n |]; [| rewrite Hdef; reflexivity].
    rewrite (Hdash n eq_refl), Hdef. reflexivity. }
  pose proof (scan_scalar p fl name rest w o v Hstop Hsent Hname Hopt Hv) as Hs.
  cbv zeta in Hs. rewrite Hsv in Hs. cbn [fst snd after] in Hs.
  rewrite (applied_String v v0 Hk Hkind Hr) in Hs. cbn [fst snd] in Hs.
  apply Hs.
  - rewrite Hk. destruct Hkind as [-> | [-> | ->]]; discriminate.
  - rewrite Hk. destruct Hkind as [-> | [-> | ->]]; discriminate.
  - intros n Hn. specialize (Hdash n Hn). destruct n; [discriminate Hdash | discriminate].
Qed.

End token_facts.

Section run_facts.

Context `{JSON}.

(** * Tokens that the scan takes for itself *)

(** Help and version.  While literal mode is off, [-h], [-H] or [-?]
    prints the usage and [-version] prints the title (or that no title
    has been set); either ends [Parse] at once with no error: the
    tokens that follow are not read, nothing is saved and no command
    handler is called. *)
Theorem help_and_version_end_the_run p a b tok rest w :
  let fl := {| stopParsing := false; doSave_ := a; doShow := b |} in
  (tok = "-h" \/ tok = "-H" \/ tok = "-?" ->
   scan p fl (tok :: rest) w = (Return None, add_event w EvUsage))
  /\ (tok = "-version" ->
      scan p fl (tok :: rest) w
      = (Return None,
         add_event w (EvPrintln (if bool_decide (Title p = EmptyString)
                                 then "No title has been set" else Title p))))
  /\ (forall env w0 w1 e,
        scan_phase p env w0 = (Return e, w1) -> Parse p env w0 = (Returns e, w1)).
Proof.
  intros fl. split; [| split].
  - intros Htok. rewrite scan_cons. unfold scan_token. cbn [stopParsing fl].
    rewrite (bool_decide_eq_true_2 (tok = "-?" ∨ tok = "-h" ∨ tok = "-H")) by tauto.
    reflexivity.
  - intros ->. rewrite scan_cons. unfold scan_token. cbn [stopParsing fl].
    rewrite (bool_decide_eq_false_2 ("-version" = "-?" ∨ _)) by (intros [|[|]]; discriminate).
    rewrite (bool_decide_eq_true_2 ("-version" = "-version")) by reflexivity.
    destruct (bool_decide_reflect (Title p = EmptyString)) as [Ht | Ht].
    + rewrite bool_decide_eq_false_2 by tauto. reflexivity.
    + rewrite bool_decide_eq_true_2 by exact Ht. reflexivity.
  - intros env w0 w1 e Hscan. unfold Parse, Parse_body.
    erewrite bind_Return by exact Hscan. reflexivity.
Qed.

(** The save and show tokens.  With an options file configured,
    [-saveoptions] and [-showoptions] only raise their flag: they are
    not positional, change no variable and the scan goes on.  With no
    options file they are ordinary option tokens, so that without an
    option of that name they end the scan with the invalid-option
    error. *)
Theorem save_and_show_tokens p a b rest w :
  let fl := {| stopParsing := false; doSave_ := a; doShow := b |} in
  (OptionsFile p <> EmptyString ->
   scan p fl ("-saveoptions" :: rest) w
   = scan p {| stopParsing := false; doSave_ := true; doShow := b |} rest w
   /\ scan p fl ("-showoptions" :: rest) w
      = scan p {| stopParsing := false; doSave_ := a; doShow := true |} rest w)
  /\ (OptionsFile p = EmptyString ->
      (lookup_option (optionList p) "saveoptions" = None ->
       scan p fl ("-saveoptions" :: rest) w
       = (Return (Some (UnknownOption "saveoptions")), w))
      /\ (lookup_option (optionList p) "showoptions" = None ->
          scan p fl ("-showoptions" :: rest) w
          = (Return (Some (UnknownOption "showoptions")), w))).
Proof.
  intros fl. split.
  - intros Hfile. split; rewrite scan_cons; unfold scan_token; cbn [stopParsing fl];
      rewrite (bool_decide_eq_true_2 (OptionsFile p ≠ EmptyString)) by exact Hfile;
      reflexivity.
  - intros Hfile.
    assert (Hs : forall tok, tok = "-saveoptions" \/ tok = "-showoptions" ->
                             sentinel p tok = false).
    { intros tok Htok. unfold sentinel.
      rewrite (bool_decide_eq_false_2 (OptionsFile p ≠ EmptyString)) by tauto.
      destruct Htok as [-> | ->]; reflexivity. }
    split; intros Hopt.
    + apply (scan_unknown p fl "saveoptions" rest w eq_refl); [apply Hs; auto | exact Hopt].
    + apply (scan_unknown p fl "showoptions" rest w eq_refl); [apply Hs; auto | exact Hopt].
Qed.

(** * Positional arguments *)

Lemma scan_plain p fl toks : forall w,
  Forall (fun tok => plain tok = true) toks ->
  scan p fl toks w
  = (Val fl, {| heap := heap w; Args := Args w ++ toks; trace := trace w |}).
Proof.
  induction toks as [| tok rest IH]; intros w Hall.
  - cbn [scan]. rewrite app_nil_r, World_eta. reflexivity.
  - apply Forall_cons in Hall. destruct Hall as [Hplain Hall].
    assert (Htok : scan_token p fl tok (head rest) w
                   = (Val (fl, false),
                      {| heap := heap w; Args := Args w ++ [tok]; trace := trace w |})).
    { unfold scan_token. destruct (stopParsing fl); [reflexivity |].
      destruct tok as [| c tok]; [discriminate Hplain |].
      cbn in Hplain. apply negb_true_iff in Hplain.
      assert (Hc : c <> "-"%char) by (intros ->; discriminate Hplain).
      repeat match goal with
             | |- context [bool_decide (String c tok = ?s)] =>
                 rewrite (bool_decide_eq_false_2 (String c tok = s))
                   by (intros [= -> _]; congruence)
             | |- context [bool_decide (String c tok = ?s ∨ ?P)] =>
                 rewrite (bool_decide_eq_false_2 (String c tok = s ∨ P))
                   by (intros [[= -> _] | [[= -> _] | [= -> _]]]; congruence)
             end.
      rewrite !andb_false_r. cbn [byte0].
      erewrite bind_Val by reflexivity. rewrite Hplain. reflexivity. }
    rewrite scan_cons, Htok, (IH _ Hall). cbn [heap Args trace].
    rewrite <- app_assoc. reflexivity.
Qed.

(** Tokens that are not empty and do not start with a dash are
    positional: the scan appends them to [Args] in their order and
    changes nothing else. *)
Theorem plain_tokens_are_positional p fl toks w :
  Forall (fun tok => plain tok = true) toks ->
  scan p fl toks w
  = (Val fl, {| heap := heap w; Args := Args w ++ toks; trace := trace w |}).
Proof. apply scan_plain. Qed.

(** A command line of plain tokens.  With no options file configured,
    or with none to open, a command line whose tokens are all plain
    (the program name included) leaves the variables as they were and
    goes straight to the command: whatever [Args] held before the call
    is dropped, [Args] becomes the whole of [os.Args], program name
    first, and [Parse] ends the way the choice of the command ends on
    that state. *)
Theorem Parse_plain_command_line p env w :
  OptionsFile p = EmptyString \/ file env = NoFile ->
  Forall (fun tok => plain tok = true) (os_Args env) ->
  Parse p env w
  = match dispatch p {| heap := heap w; Args := os_Args env; trace := trace w |} with
    | (Val _, w') => (Returns None, w')
    | (Return e, w') => (Returns e, w')
    | (Panic msg, w') => (Panics msg, w')
    end.
Proof.
  intros Hfile Hplain.
  assert (Hload : load_phase p env w = (Val tt, w)).
  { unfold load_phase.
    destruct (bool_decide_reflect (OptionsFile p ≠ EmptyString)) as [Hne |]; [| reflexivity].
    destruct Hfile as [He | Hf]; [contradiction |].
    assert (Hr : returned (loadOptions p env) w = (Val None, w))
      by (unfold returned, loadOptions; rewrite Hf; reflexivity).
    erewrite bind_Val by exact Hr. reflexivity. }
  assert (Hscan : scan_phase p env w
                  = (Val no_flags,
                     {| heap := heap w; Args := os_Args env; trace := trace w |})).
  { unfold scan_phase. erewrite bind_Val by exact Hload.
    erewrite bind_Val by reflexivity.
    rewrite (scan_plain p no_flags (os_Args env) _ Hplain). reflexivity. }
  unfold Parse, Parse_body. erewrite bind_Val by exact Hscan.
  change (finish p env no_flags) with (dispatch p).
  unfold mbind, M_bind, bind.
  destruct (dispatch p _) as [[[] | e | msg] w']; reflexivity.
Qed.

(** * The options file at the start of Parse *)

(** With no options file configured the file is never looked at: the
    run is the same whatever it holds.  With one configured, a file
    that does not decode ends [Parse] with that error before any token
    is read, and a file that cannot be opened is the same as a file
    that holds an empty document. *)
Theorem options_file_at_start p env w :
  (OptionsFile p = EmptyString ->
   forall f, Parse p {| os_Args := os_Args env; file := f; write_err := write_err env |} w
             = Parse p env w)
  /\ (OptionsFile p <> EmptyString ->
      (forall msg, file env = Undecodable msg ->
                   Parse p env w = (Returns (Some (JSONError msg)), w))
      /\ (file env = NoFile ->
          Parse p env w
          = Parse p {| os_Args := os_Args env; file := Decoded ∅;
                       write_err := write_err env |} w)).
Proof.
  split.
  - intros Hfile f. unfold Parse, Parse_body, scan_phase, load_phase.
    rewrite (bool_decide_eq_false_2 (OptionsFile p ≠ EmptyString)) by tauto.
    reflexivity.
  - intros Hfile. split.
    + intros msg Hf. unfold Parse, Parse_body, scan_phase, load_phase.
      rewrite (bool_decide_eq_true_2 (OptionsFile p ≠ EmptyString)) by exact Hfile.
      unfold loadOptions. rewrite Hf. reflexivity.
    + intros Hf.
      assert (Hload : forall l w0,
                 for_each (load_option (∅ : gmap string json)) l w0 = (Val tt, w0)).
      { induction l as [| o l IH]; intros w0; [reflexivity |].
        cbn [for_each]. erewrite bind_Val; [apply IH |].
        unfold load_option. rewrite lookup_empty. reflexivity. }
      assert (Hphase : forall env', file env' = NoFile \/ file env' = Decoded ∅ ->
                                    load_phase p env' w = (Val tt, w)).
      { intros env' Hf'. unfold load_phase.
        rewrite (bool_decide_eq_true_2 (OptionsFile p ≠ EmptyString)) by exact Hfile.
        assert (Hr : returned (loadOptions p env') w = (Val None, w)).
        { unfold returned, loadOptions. destruct Hf' as [-> | ->]; [reflexivity |].
          erewrite bind_Val by apply Hload. reflexivity. }
        erewrite bind_Val by exact Hr. reflexivity. }
      set (env' := {| os_Args := os_Args env; file := Decoded ∅;
                      write_err := write_err env |}).
      assert (Hsp : scan_phase p env' w = scan_phase p env w).
      { unfold scan_phase.
        erewrite (bind_Val (load_phase p env')) by (apply Hphase; auto).
        erewrite (bind_Val (load_phase p env)) by (apply Hphase; auto).
        reflexivity. }
      unfold Parse, Parse_body, mbind, M_bind, bind. rewrite Hsp. reflexivity.
Qed.

End run_facts.

Section show_save_facts.

Context `{JSON}.

(** * Showing and saving the options *)

(** After the scan, a show request wins over a save request, and
    either one replaces the rest of the run: the required-option check
    is not made and no command handler is called.  Show prints the
    text of the map, or returns the error of the marshalling.  Save
    drops that error (it then writes the empty text) and reports
    success; it fails only when the directory or the file cannot be
    made, and then nothing is written. *)
Theorem show_and_save p env fl w m w1 :
  optionMap_of p w = (Val m, w1) ->
  (doShow fl = true ->
   finish p env fl w =
   match MarshalIndent m with
   | (js, None) => (Val tt, add_event w1 (EvPrintln js))
   | (_, Some msg) => (Return (Some (JSONError msg)), w1)
   end)
  /\ (doShow fl = false -> doSave_ fl = true ->
      finish p env fl w =
      match write_err env with
      | Some msg => (Return (Some (PathError msg)), w1)
      | None =>
          (Val tt,
           add_event
             (add_event w1
                (EvWriteFile (OptionsFile p)
                   match MarshalIndent m with
                   | (js, None) => js
                   | (_, Some _) => EmptyString
                   end))
             (EvPrintln ("Options saved to " +:+ OptionsFile p)))
      end).
Proof.
  intros Hmap.
  assert (Hjson : jsonOptions p w =
                  match MarshalIndent m with
                  | (js, None) => (Val (js, None), w1)
                  | (_, Some msg) => (Val (EmptyString, Some (JSONError msg)), w1)
                  end).
  { unfold jsonOptions. erewrite bind_Val by exact Hmap.
    destruct (MarshalIndent m) as [js [msg |]]; reflexivity. }
  split.
  - intros Hshow. unfold finish. rewrite Hshow.
    unfold mbind, M_bind, bind. rewrite Hjson.
    destruct (MarshalIndent m) as [js [msg |]]; reflexivity.
  - intros Hshow Hsave. unfold finish. rewrite Hshow, Hsave.
    unfold saveOptions, mbind, M_bind, bind. rewrite Hjson.
    destruct (MarshalIndent m) as [js [msg |]]; destruct (write_err env); reflexivity.
Qed.

(** * The help text *)

Lemma printOption_names h o n :
  In (Printf "  -%s" [n]) (printOption h o) <-> Name o = n.
Proof.
  unfold printOption. split.
  - intros Hin.
    repeat (apply in_app_or in Hin; destruct Hin as [Hin | Hin]);
      repeat match type of Hin with
             | In _ (if ?b then _ else _) => destruct b
             | In _ (match ?k with _ => _ end) => destruct k
             end;
      cbn in Hin;
      repeat match type of Hin with
             | _ \/ _ => destruct Hin as [Hin | Hin]
             | False => contradiction
             end;
      try discriminate Hin.
    injection Hin as ->. reflexivity.
  - intros <-. apply in_or_app. left. left. reflexivity.
Qed.

Lemma group_options_names h g n l : forall printed,
  In (Printf "  -%s" [n]) (group_options h g l printed) <->
  exists o, In o l /\ Name o = n /\ visible o = true /\ Group o = g.
Proof.
  induction l as [| o l IH]; intros printed; cbn [group_options].
  - split; [contradiction | intros (o & [] & _)].
  - destruct (visible o && bool_decide (Group o = g)) eqn:Hcond.
    + apply andb_true_iff in Hcond. destruct Hcond as [Hvis Hg].
      apply bool_decide_eq_true in Hg.
      rewrite !in_app_iff, printOption_names, IH. split.
      * intros [Hhead | [Hname | (o' & Ho' & Hrest)]].
        -- destruct printed; [contradiction |].
           destruct Hhead as [Hhead | []]. discriminate Hhead.
        -- exists o. split; [left; reflexivity | auto].
        -- exists o'. split; [right; exact Ho' | exact Hrest].
      * intros (o' & [<- | Ho'] & Hname & Hrest).
        -- right. left. exact Hname.
        -- right. right. exists o'. auto.
    + rewrite IH. split.
      * intros (o' & Ho' & Hrest). exists o'. split; [right; exact Ho' | exact Hrest].
      * intros (o' & [<- | Ho'] & Hname & Hvis & Hg).
        -- rewrite Hvis in Hcond. cbn in Hcond.
           apply bool_decide_eq_false in Hcond. contradiction.
        -- exists o'. auto.
Qed.

(** Which options the help lists.  [Usage] prints the line of an
    option exactly when the option does not carry the Hidden flag and
    its group is empty or is the name of a registered command: a
    hidden option is never shown, and neither is an option that
    belongs to a command that is not registered. *)
Theorem Usage_lists_option commandName p h n :
  In (Printf "  -%s" [n]) (Usage commandName p h) <->
  exists o, In o (optionList p) /\ Name o = n /\ visible o = true
            /\ (Group o = EmptyString
                \/ exists g, In g (commandList p) /\ Command g = Group o).
Proof.
  unfold Usage. rewrite !in_app_iff, !in_concat. split.
  - intros [Hin | [Hin | [Hin | [Hin | [Hin | [Hin | [Hin | [Hin | Hin]]]]]]]].
    + destruct (bool_decide _); [destruct Hin as [Hin | []]; discriminate Hin | contradiction].
    + destruct Hin as [Hin | []]. discriminate Hin.
    + rewrite <- list_elem_of_In in Hin. apply list_elem_of_fmap in Hin.
      destruct Hin as (c & Hc & _). discriminate Hc.
    + destruct Hin as [Hin | []]. discriminate Hin.
    + destruct Hin as (calls & Hcalls & Hin).
      rewrite <- list_elem_of_In in Hcalls. apply list_elem_of_fmap in Hcalls.
      destruct Hcalls as (o & -> & Ho). rewrite list_elem_of_In in Ho.
      destruct (visible o && bool_decide (Group o = EmptyString)) eqn:Hcond;
        [| contradiction].
      apply andb_true_iff in Hcond. destruct Hcond as [Hvis Hg].
      apply bool_decide_eq_true in Hg. apply printOption_names in Hin.
      exists o. auto.
    + destruct (bool_decide _); [| contradiction].
      destruct Hin as [Hin | [Hin | []]]; discriminate Hin.
    + destruct (bool_decide _); [destruct Hin as [Hin | []]; discriminate Hin | contradiction].
    + destruct Hin as [Hin | []]. discriminate Hin.
    + destruct Hin as (calls & Hcalls & Hin).
      rewrite <- list_elem_of_In in Hcalls. apply list_elem_of_fmap in Hcalls.
      destruct Hcalls as (g & -> & Hg). rewrite list_elem_of_In in Hg.
      destruct (bool_decide (Command g ≠ EmptyString)); [| contradiction].
      apply group_options_names in Hin. destruct Hin as (o & Ho & Hname & Hvis & Hgroup).
      exists o. repeat split; try assumption. right. exists g. auto.
  - intros (o & Ho & Hname & Hvis & Hgroup).
    destruct (bool_decide_reflect (Group o = EmptyString)) as [He | Hne].
    + right. right. right. right. left.
      exists (printOption h o). split; [| apply printOption_names; exact Hname].
      rewrite <- list_elem_of_In. apply list_elem_of_fmap.
      exists o. split; [| rewrite list_elem_of_In; exact Ho].
      rewrite Hvis. rewrite bool_decide_eq_true_2 by exact He. reflexivity.
    + destruct Hgroup as [He | (g & Hg & Hcmd)]; [contradiction |].
      do 8 right.
      exists (group_options h (Command g) (optionList p) false). split.
      * rewrite <- list_elem_of_In. apply list_elem_of_fmap.
        exists g. split; [| rewrite list_elem_of_In; exact Hg].
        rewrite bool_decide_eq_true_2 by congruence. reflexivity.
      * apply group_options_names. exists o. auto.
Qed.

Lemma printOption_no_header h o g :
  ~ In (Printf ("%s options:" +:+ LF) [g]) (printOption h o).
Proof.
  unfold printOption. intros Hin.
  repeat (apply in_app_or in Hin; destruct Hin as [Hin | Hin]);
    repeat match type of Hin with
           | In _ (if ?b then _ else _) => destruct b
           | In _ (match ?k with _ => _ end) => destruct k
           end;
    cbn in Hin;
    repeat match type of Hin with
           | _ \/ _ => destruct Hin as [Hin | Hin]
           | False => contradiction
           end;
    discriminate Hin.
Qed.

Lemma group_options_header h g g' l : forall printed,
  In (Printf ("%s options:" +:+ LF) [g']) (group_options h g l printed) <->
  printed = false /\ g' = g
  /\ exists o, In o l /\ visible o = true /\ Group o = g.
Proof.
  induction l as [| o l IH]; intros printed; cbn [group_options].
  - split; [contradiction | intros (_ & _ & o & [] & _)].
  - destruct (visible o && bool_decide (Group o = g)) eqn:Hcond.
    + apply andb_true_iff in Hcond. destruct Hcond as [Hvis Hg].
      apply bool_decide_eq_true in Hg.
      rewrite !in_app_iff, IH. split.
      * intros [Hhead | [Hopt | (Hp & _)]].
        -- destruct printed; [contradiction |].
           destruct Hhead as [Hhead | []]. injection Hhead as ->.
           split; [reflexivity |]. split; [reflexivity |].
           exists o. split; [left; reflexivity | auto].
        -- destruct (printOption_no_header _ _ _ Hopt).
        -- discriminate Hp.
      * intros (-> & -> & _). left. left. reflexivity.
    + rewrite IH. split.
      * intros (Hp & Hg & o' & Ho' & Hrest).
        split; [exact Hp |]. split; [exact Hg |].
        exists o'. split; [right; exact Ho' | exact Hrest].
      * intros (Hp & Hg' & o' & [<- | Ho'] & Hvis & Hg).
        -- rewrite Hvis in Hcond. cbn in Hcond.
           apply bool_decide_eq_false in Hcond. contradiction.
        -- split; [exact Hp |]. split; [exact Hg' |]. exists o'. auto.
Qed.

(** The headers of the command groups.  [Usage] prints the header of
    a group exactly for a registered command whose name is not empty
    and that has at least one option in its group that is not hidden:
    a command without options of its own, or with hidden ones only,
    gets no header, and neither does the default command. *)
Theorem Usage_group_header commandName p h g :
  In (Printf ("%s options:" +:+ LF) [g]) (Usage commandName p h) <->
  g <> EmptyString
  /\ (exists c, In c (commandList p) /\ Command c = g)
  /\ exists o, In o (optionList p) /\ visible o = true /\ Group o = g.
Proof.
  unfold Usage. rewrite !in_app_iff, !in_concat. split.
  - intros [Hin | [Hin | [Hin | [Hin | [Hin | [Hin | [Hin | [Hin | Hin]]]]]]]].
    + destruct (bool_decide _); [destruct Hin as [Hin | []]; discriminate Hin | contradiction].
    + destruct Hin as [Hin | []]. discriminate Hin.
    + rewrite <- list_elem_of_In in Hin. apply list_elem_of_fmap in Hin.
      destruct Hin as (c & Hc & _). discriminate Hc.
    + destruct Hin as [Hin | []]. discriminate Hin.
    + destruct Hin as (calls & Hcalls & Hin).
      rewrite <- list_elem_of_In in Hcalls. apply list_elem_of_fmap in Hcalls.
      destruct Hcalls as (o & -> & Ho).
      destruct (visible o && bool_decide (Group o = EmptyString)); [| contradiction].
      destruct (printOption_no_header _ _ _ Hin).
    + destruct (bool_decide _); [| contradiction].
      destruct Hin as [Hin | [Hin | []]]; discriminate Hin.
    + destruct (bool_decide _); [destruct Hin as [Hin | []]; discriminate Hin | contradiction].
    + destruct Hin as [Hin | []]. discriminate Hin.
    + destruct Hin as (calls & Hcalls & Hin).
      rewrite <- list_elem_of_In in Hcalls. apply list_elem_of_fmap in Hcalls.
      destruct Hcalls as (c & -> & Hc). rewrite list_elem_of_In in Hc.
      destruct (bool_decide_reflect (Command c ≠ EmptyString)) as [Hne |]; [| contradiction].
      apply group_options_header in Hin. destruct Hin as (_ & -> & Hopt).
      split; [exact Hne |]. split; [exists c; auto | exact Hopt].
  - intros (Hne & (c & Hc & <-) & Hopt).
    do 8 right.
    exists (group_options h (Command c) (optionList p) false). split.
    + rewrite <- list_elem_of_In. apply list_elem_of_fmap.
      exists c. split; [| rewrite list_elem_of_In; exact Hc].
      rewrite bool_decide_eq_true_2 by exact Hne. reflexivity.
    + apply group_options_header. auto.
Qed.

End show_save_facts.

(** * Closed examples, on the concrete library *)

Import Go Examples.

(** Evaluate the left-hand side and compare. *)
Ltac run :=
  lazymatch goal with
  | |- ?l = ?r => let l' := eval vm_compute in l in change (l' = r); reflexivity
  | |- ?l <> ?r => let l' := eval vm_compute in l in change (l' <> r); discriminate
  end.

(** ** The documented values of the integer parser *)

Example ParseInt_hex : strconv.ParseInt "0x1A" = (26, None).
Proof. reflexivity. Qed.
Example ParseInt_octal : strconv.ParseInt "017" = (15, None).
Proof. reflexivity. Qed.
Example ParseInt_decimal : strconv.ParseInt "42" = (42, None).
Proof. reflexivity. Qed.
Example ParseInt_overflow :
  strconv.ParseInt "99999999999999999999"
  = (2 ^ 63 - 1, Some (NumError "ParseInt" "99999999999999999999" ErrRange)).
Proof. run. Qed.
Example FormatInt_min : strconv.FormatInt (- 2 ^ 63) = "-9223372036854775808".
Proof. run. Qed.
Example ParseInt_min : strconv.ParseInt "-9223372036854775808" = (- 2 ^ 63, None).
Proof. run. Qed.
Example base64_encode_ex : base64.EncodeToString (list_ascii_of_string "hello") = "aGVsbG8=".
Proof. reflexivity. Qed.
Example base64_decode_ex : base64.DecodeString "aGVsbG8=" = (list_ascii_of_string "hello", None).
Proof. run. Qed.
Example base64_decode_partial :
  base64.DecodeString "aGVs!" = (list_ascii_of_string "hel", Some (CorruptInputError 4)).
Proof. run. Qed.
(** ** The command line of the specification's scenarios *)

Example verbose_then_command :
  Parse flag_pkg (env ["prog"; "-verbose"; "copy"] NoFile) (world flag_heap)
  = (Returns None,
     {| heap := [boolOption true]; Args := ["prog"; "copy"];
        trace := [EvCommand "copy"] |}).
Proof. run. Qed.

Example verbose_false :
  Parse flag_pkg (env ["prog"; "-verbose"; "false"] NoFile) (world [boolOption true])
  = (Returns None,
     {| heap := [boolOption false]; Args := ["prog"];
        trace := [EvCommand EmptyString] |}).
Proof. run. Qed.

Example tags_accumulate :
  Parse tag_pkg (env ["prog"; "-tag"; "a"; "-tag"; "b"] NoFile) (world tag_heap)
  = (Returns None,
     {| heap := [stringListOption (Some ["a"; "b"])]; Args := ["prog"]; trace := [] |}).
Proof. run. Qed.

Example tags_reset :
  Parse tag_pkg (env ["prog"; "-tag"; "a"; "-tag="] NoFile) (world tag_heap)
  = (Returns None,
     {| heap := [stringListOption None]; Args := ["prog"]; trace := [] |}).
Proof. run. Qed.

Example literal_mode_scenario :
  Parse flag_pkg (env ["prog"; "-verbose"; "1"; "--"; "-b"] NoFile) (world flag_heap)
  = (Returns None,
     {| heap := [boolOption true]; Args := ["prog"; "-b"];
        trace := [EvCommand EmptyString] |}).
Proof. run. Qed.

Example required_user_missing :
  Parse user_cmd_pkg (env ["prog"] NoFile) (world user_heap)
  = (Returns (Some (MissingRequiredOption "user")),
     {| heap := user_heap; Args := ["prog"]; trace := [] |}).
Proof. run. Qed.

(** ** Claims settled at one input *)

(** C1, at the input where the code leaves it.  A boolean option
    followed by an empty token: the claim gives [verbose] the value
    true and leaves the empty token for the next iteration; the code
    indexes the first byte of the empty token to look for a dash and
    panics, with the option still unset. *)
Theorem bool_lookahead_empty_next_token :
  Parse flag_pkg (env ["prog"; "-verbose"; EmptyString] NoFile) (world flag_heap)
  = (Panics "index out of range",
     {| heap := [boolOption false]; Args := ["prog"]; trace := [] |}).
Proof. run. Qed.

(** C2, at the input where the code leaves it.  A string-list option
    registered on a nil variable has the empty text as its captured
    default.  Given [-tag a] and then a bare [-tag], the list is
    neither reset nor reloaded: [json.Unmarshal] refuses the empty
    text, its error is dropped, and the list keeps the element [a]. *)
Theorem bare_list_option_keeps_list :
  Default <$> lookup_option (optionList tag_pkg) "tag" = Some EmptyString
  /\ Parse tag_pkg (env ["prog"; "-tag"; "a"; "-tag"] NoFile) (world tag_heap)
     = (Returns None,
        {| heap := [stringListOption (Some ["a"])]; Args := ["prog"]; trace := [] |}).
Proof. split; run. Qed.

(** C4, at the input where the code leaves it.  An integer option with
    the Preference flag is set to 1000000 and saved: the map of
    [jsonOptions] holds it under its name.  Loading what was saved into
    the same registration fails: the number comes back as a [float64],
    [%v] prints it as [1e+06], and [ParseInt] refuses that text, so
    [Parse] returns the error and the variable keeps 0. *)
Theorem saved_int_does_not_load :
  Parse size_pkg (env ["prog"; "-size"; "1000000"; "-saveoptions"] NoFile) (world size_heap)
  = (Returns None,
     {| heap := [intOption 1000000]; Args := ["prog"];
        trace := [EvWriteFile "options.json"
                    (MarshalIndent {[ "size" := NInt64 1000000 ]}).1;
                  EvPrintln "Options saved to options.json"] |})
  /\ optionMap_of size_pkg (world [intOption 1000000])
     = (Val {[ "size" := NInt64 1000000 ]}, world [intOption 1000000])
  /\ Parse size_pkg (env ["prog"] (saved_file {[ "size" := NInt64 1000000 ]}))
       (world size_heap)
     = (Returns (Some (NumError "ParseInt" "1e+06" ErrSyntax)),
        {| heap := [intOption 0]; Args := []; trace := [] |}).
Proof. repeat split; run. Qed.

(** ** Counterexamples *)


(** C6 fails without a command: a required option is unset after the
    scan, and [Parse] returns the missing-command error, not the
    missing-option one. *)
Lemma required_unset_without_command :
  (exists o, lookup_option (optionList user_pkg) "user" = Some o
             /\ has_flag (Flags o) Required = true
             /\ String' <$> deref user_heap (Value o) = Some (Default o))
  /\ Parse user_pkg (env ["prog"] NoFile) (world user_heap)
     = (Returns (Some MissingCommand),
        {| heap := user_heap; Args := ["prog"]; trace := [EvUsage] |}).
Proof.
  split; [| run].
  exists (registered_option user_pkg "user"). repeat split; run.
Qed.

(** C9 fails: registering the name [verbose] a second time succeeds
    and the registry then holds two definitions of that name. *)
Lemma addOption_twice :
  exists p,
    addOption "verbose" EmptyString EmptyString "Again" 0 Standard flag_heap flag_pkg = Some p
    /\ Name <$> optionList p = ["verbose"; "verbose"].
Proof.
  exists (registered (addOption "verbose" EmptyString EmptyString "Again" 0 Standard
                        flag_heap flag_pkg)).
  split; run.
Qed.


(** C5 fails when [Set] fails or an array holds something else than
    strings.  The text [12x] under the key of an integer option ends
    the load with the error of [ParseInt]: the variable, which held 5,
    is overwritten with 0 and on-change is not called, where the text
    [12] is stored and followed by the on-change call.  A number in
    the array of a string list makes the load panic after the strings
    before it were appended. *)
Lemma load_failure_skips_onChange :
  loadOptions watched_size_pkg (env ["prog"] (Decoded {[ "size" := JString "12x" ]}))
    (world [intOption 5])
  = (Return (Some (NumError "ParseInt" "12x" ErrSyntax)),
     {| heap := [intOption 0]; Args := []; trace := [] |})
  /\ loadOptions watched_size_pkg (env ["prog"] (Decoded {[ "size" := JString "12" ]}))
       (world [intOption 5])
     = (Return None,
        {| heap := [intOption 12]; Args := []; trace := [EvChange "size"] |})
  /\ loadOptions tag_pkg
       (env ["prog"] (Decoded {[ "tag" := JArray [JString "a"; JNumber 1] ]}))
       (world tag_heap)
     = (Panic "interface conversion: interface {} is float64, not string",
        {| heap := [stringListOption (Some ["a"])]; Args := []; trace := [] |}).
Proof. repeat split; run. Qed.

(** ** Witnesses *)


Lemma loadOptions_coercion_witness :
  loadOptions tag_pkg
    (env ["prog"] (Decoded {[ "tag" := JArray [JString "a"; JString "b"] ]}))
    (world [stringListOption (Some ["old"])])
  = (Return None, world [stringListOption (Some ["a"; "b"])]).
Proof.
  refine (eq_trans (proj1 (proj2 (proj2
    (loadOptions_coercion tag_pkg
       (env ["prog"] (Decoded {[ "tag" := JArray [JString "a"; JString "b"] ]}))
       (registered_option tag_pkg "tag")
       {[ "tag" := JArray [JString "a"; JString "b"] ]}
       (world [stringListOption (Some ["old"])]) (stringListOption (Some ["old"])) _)))
    _) _).
  - reflexivity.
  - reflexivity.
  - run.
Defined.


Lemma addOption_keeps_duplicates_witness :
  exists p' o,
    addOption "verbose" EmptyString EmptyString "Again" 0 Standard flag_heap flag_pkg = Some p'
    /\ optionList p' = optionList flag_pkg ++ [o]
    /\ Name o = "verbose" /\ Default o = String' (boolOption false)
    /\ lookup_option (optionList p') "verbose" = Some (registered_option flag_pkg "verbose").
Proof.
  apply (addOption_keeps_duplicates "verbose" EmptyString EmptyString "Again" 0 Standard
           flag_heap flag_pkg (boolOption false) (registered_option flag_pkg "verbose")).
  - reflexivity.
  - run.
Defined.


(** ** The scan and the help text at concrete command lines *)

Lemma bool_option_lookahead_witness :
  scan flag_pkg no_flags ["-verbose"; "false"; "copy"] (world [boolOption true])
  = (Val no_flags, {| heap := [boolOption false]; Args := ["copy"]; trace := [] |}).
Proof.
  refine (eq_trans (proj2
    (bool_option_lookahead flag_pkg no_flags "verbose" ["false"; "copy"]
       (world [boolOption true]) (registered_option flag_pkg "verbose") true
       _ _ _ _ _ _)) _).
  - reflexivity.
  - reflexivity.
  - reflexivity.
  - run.
  - reflexivity.
  - intros n [= <-]. discriminate.
  - run.
Defined.

Lemma list_option_bare_witness :
  scan tag_pkg no_flags ["-tag"; "-x=1"] (world [stringListOption (Some ["a"])])
  = (Return (Some (UnknownOption "x")), world [stringListOption (Some ["a"])]).
Proof.
  refine (eq_trans
    (list_option_bare tag_pkg no_flags "tag" ["-x=1"]
       (world [stringListOption (Some ["a"])]) (registered_option tag_pkg "tag")
       (Some ["a"]) _ _ _ _ _ _) _).
  - reflexivity.
  - reflexivity.
  - reflexivity.
  - run.
  - reflexivity.
  - intros n [= <-]. reflexivity.
  - run.
Defined.

Lemma scalar_option_lookahead_witness :
  scan size_pkg no_flags ["-size"; "42"; "rest"] (world size_heap)
  = (Val no_flags, {| heap := [intOption 42]; Args := ["rest"]; trace := [] |}).
Proof.
  refine (eq_trans (proj2
    (scalar_option_lookahead size_pkg no_flags "size" ["42"; "rest"] (world size_heap)
       (registered_option size_pkg "size") (intOption 0) _ _ _ _ _ _ _) _) _).
  - reflexivity.
  - reflexivity.
  - reflexivity.
  - run.
  - reflexivity.
  - discriminate.
  - discriminate.
  - intros n [= <-]. discriminate.
  - run.
Defined.

Lemma bare_option_restores_registered_witness :
  scan size_pkg no_flags ["-size"] (world [intOption 7])
  = (Val no_flags, world [intOption 0]).
Proof.
  refine (eq_trans
    (bare_option_restores_registered size_pkg no_flags "size" [] (world [intOption 7])
       (registered_option size_pkg "size") (intOption 7) (intOption 0)
       _ _ _ _ _ _ _ _ _ _) _).
  - reflexivity.
  - reflexivity.
  - reflexivity.
  - run.
  - reflexivity.
  - reflexivity.
  - left. reflexivity.
  - cbn. lia.
  - run.
  - intros n [=].
  - run.
Defined.

Lemma explicit_value_witness :
  scan size_pkg no_flags ["-size=0x10"] (world size_heap)
  = (Val no_flags, world [intOption 16]).
Proof.
  refine (eq_trans
    (explicit_value size_pkg no_flags "size" "0x10" [] (world size_heap)
       (registered_option size_pkg "size") (intOption 0) _ _ _ _ _) _).
  - reflexivity.
  - reflexivity.
  - reflexivity.
  - run.
  - reflexivity.
  - run.
Defined.

Lemma extra_equals_ignored_witness :
  scan size_pkg no_flags ["-size=1=2"] (world size_heap)
  = (Val no_flags, world size_heap).
Proof.
  refine (eq_trans
    (extra_equals_ignored size_pkg no_flags "size" "1" "2" [] (world size_heap)
       (registered_option size_pkg "size") _ _ _) _).
  - reflexivity.
  - reflexivity.
  - run.
  - reflexivity.
Defined.

Lemma unknown_option_witness :
  scan flag_pkg no_flags ["-quiet=1"; "copy"] (world flag_heap)
  = (Return (Some (UnknownOption "quiet")), world flag_heap)
  /\ errors_New (@UnknownOption "quiet") = Some "Invalid option -quiet".
Proof.
  refine (unknown_option flag_pkg no_flags "quiet=1" ["copy"] (world flag_heap) _ _ _).
  - reflexivity.
  - reflexivity.
  - reflexivity.
Defined.

Lemma plain_tokens_are_positional_witness :
  scan flag_pkg no_flags ["copy"; "a.txt"; "b.txt"] (world flag_heap)
  = (Val no_flags,
     {| heap := flag_heap; Args := ["copy"; "a.txt"; "b.txt"]; trace := [] |}).
Proof.
  refine (plain_tokens_are_positional flag_pkg no_flags ["copy"; "a.txt"; "b.txt"]
            (world flag_heap) _).
  repeat constructor.
Defined.

Lemma Parse_plain_command_line_witness :
  Parse flag_pkg (env ["prog"; "copy"; "a.txt"] NoFile)
    {| heap := flag_heap; Args := ["stale"]; trace := [] |}
  = (Returns None,
     {| heap := flag_heap; Args := ["prog"; "copy"; "a.txt"];
        trace := [EvCommand "copy"] |}).
Proof.
  refine (eq_trans
    (Parse_plain_command_line flag_pkg (env ["prog"; "copy"; "a.txt"] NoFile)
       {| heap := flag_heap; Args := ["stale"]; trace := [] |} _ _) _).
  - left. reflexivity.
  - repeat constructor.
  - run.
Defined.

Lemma optionMap_keys_witness :
  exists m,
    optionMap_of size_pkg (world [intOption 5]) = (Val m, world [intOption 5])
    /\ forall k, is_Some (m !! k) <->
                 exists o, o ∈ optionList size_pkg /\ Name o = k
                           /\ to_save (heap (world [intOption 5])) o.
Proof.
  refine (optionMap_keys size_pkg (world [intOption 5]) _).
  apply Forall_cons. split; [| constructor].
  split; [reflexivity | eexists; reflexivity].
Defined.

Lemma show_and_save_witness :
  finish size_pkg (env ["prog"] NoFile)
    {| stopParsing := false; doSave_ := true; doShow := true |} (world [intOption 5])
  = (Val tt,
     add_event (world [intOption 5])
       (EvPrintln (MarshalIndent {[ "size" := NInt64 5 ]}).1)).
Proof.
  refine (eq_trans (proj1
    (show_and_save size_pkg (env ["prog"] NoFile)
       {| stopParsing := false; doSave_ := true; doShow := true |} (world [intOption 5])
       {[ "size" := NInt64 5 ]} (world [intOption 5]) _) _) _).
  - run.
  - reflexivity.
  - run.
Defined.
